(** * AES256Cipher: the DDC SDK's built-in AES-256-CBC envelope cipher

    A shallow embedding of [packages/core/src/cipher/AES256Cipher.ts],
    followed by the properties of its encrypt/decrypt pair.

    The class is a thin adapter over four functions of Node's [crypto]
    module: [createHash], [randomBytes], [createCipheriv] and
    [createDecipheriv].  They are not part of the repository; they are
    modelled here as the standards they implement define them, and the
    models are checked against the published test vectors, those of
    [tests/cipher/AES256Cipher.nist.test.ts] among them.

    Layout:
    - [Bytes]        byte strings, [Buffer.from(_, 'hex')]
    - [SHA256]       FIPS 180-4 SHA-256, the digest behind [createHash('sha256')]
    - [AES]          FIPS 197 AES-256 block cipher and its inverse
    - [Js]           strings and UTF-8, thrown errors, the world, the monad
    - [Crypto]       Node's hash and cipher objects: CBC mode, PKCS7
    - [AES256Cipher] the class under verification
    - [Reference]    one-shot AES-256-CBC/PKCS7, for comparison
    - [Vocabulary]   the words of the specification
    - [Callers]      what the tests and examples do with envelopes
    then the properties: the module [Contract] holds one theorem per
    claim of the specification, and the last one, [Beyond], what the
    code shows besides. *)

From Stdlib Require Import Strings.String Strings.Ascii Strings.Byte.
From Stdlib Require Import List NArith Bool Lia Arith PeanoNat.
From Stdlib Require Import setoid_ring.Ring.
Import ListNotations.
Local Open Scope list_scope.

Set Implicit Arguments.

(* ================================================================== *)
(** ** Byte strings *)
(* ================================================================== *)

Module Bytes.

(** A [Uint8Array] or [Buffer]: every element is one of the 256 byte
    values, so a list of [byte] is exactly its contents. *)
Definition bytes := list byte.

(** The byte with value [n mod 256]. *)
Definition byte_of_N (n : N) : byte :=
  match Byte.of_N (n mod 256) with
  | Some b => b
  | None => x00
  end.

Definition hex_digit (c : ascii) : option N :=
  let n := N_of_ascii c in
  if ((48 <=? n) && (n <=? 57))%N then Some (n - 48)%N
  else if ((97 <=? n) && (n <=? 102))%N then Some (n - 87)%N
  else if ((65 <=? n) && (n <=? 70))%N then Some (n - 55)%N
  else None.

(** [Buffer.from(s, 'hex')] on well-formed input; blanks between
    digits are skipped so that tables can be laid out in rows. *)
Fixpoint hex_go (s : string) (pending : option N) : bytes :=
  match s with
  | EmptyString => []
  | String c rest =>
      match hex_digit c, pending with
      | None, _ => hex_go rest pending
      | Some d, None => hex_go rest (Some d)
      | Some d, Some h => byte_of_N (16 * h + d)%N :: hex_go rest None
      end
  end.

Definition hex (s : string) : bytes := hex_go s None.

(** The bytes of an ASCII literal. *)
Fixpoint ascii_bytes (s : string) : bytes :=
  match s with
  | EmptyString => []
  | String c rest => byte_of_N (N_of_ascii c) :: ascii_bytes rest
  end.

(** Big-endian 32-bit words. *)
Definition word_of_4 (a b c d : byte) : N :=
  (2 ^ 24 * Byte.to_N a + 2 ^ 16 * Byte.to_N b + 2 ^ 8 * Byte.to_N c + Byte.to_N d)%N.

Definition bytes_of_word (w : N) : bytes :=
  [byte_of_N (w / 2 ^ 24); byte_of_N (w / 2 ^ 16); byte_of_N (w / 2 ^ 8); byte_of_N w]%N.

Fixpoint words_of_bytes (l : bytes) : list N :=
  match l with
  | a :: b :: c :: d :: rest => word_of_4 a b c d :: words_of_bytes rest
  | _ => []
  end.

End Bytes.
Import Bytes.

(* ================================================================== *)
(** ** SHA-256 (FIPS 180-4) *)
(* ================================================================== *)

Module SHA256.
Local Open Scope N_scope.

Definition w32 (x : N) : N := x mod 2 ^ 32.
Definition add32 (x y : N) : N := w32 (x + y).
Definition rotr (n x : N) : N := N.lor (N.shiftr x n) (w32 (N.shiftl x (32 - n))).
Definition not32 (x : N) : N := N.lxor x 0xffffffff.

Definition Ch (x y z : N) := N.lxor (N.land x y) (N.land (not32 x) z).
Definition Maj (x y z : N) := N.lxor (N.lxor (N.land x y) (N.land x z)) (N.land y z).
Definition Sigma0 x := N.lxor (N.lxor (rotr 2 x) (rotr 13 x)) (rotr 22 x).
Definition Sigma1 x := N.lxor (N.lxor (rotr 6 x) (rotr 11 x)) (rotr 25 x).
Definition sigma0 x := N.lxor (N.lxor (rotr 7 x) (rotr 18 x)) (N.shiftr x 3).
Definition sigma1 x := N.lxor (N.lxor (rotr 17 x) (rotr 19 x)) (N.shiftr x 10).

(** The sixty-four round constants, FIPS 180-4 section 4.2.2. *)
Definition K : list N := Eval vm_compute in words_of_bytes (hex
  "428a2f98 71374491 b5c0fbcf e9b5dba5 3956c25b 59f111f1 923f82a4 ab1c5ed5
   d807aa98 12835b01 243185be 550c7dc3 72be5d74 80deb1fe 9bdc06a7 c19bf174
   e49b69c1 efbe4786 0fc19dc6 240ca1cc 2de92c6f 4a7484aa 5cb0a9dc 76f988da
   983e5152 a831c66d b00327c8 bf597fc7 c6e00bf3 d5a79147 06ca6351 14292967
   27b70a85 2e1b2138 4d2c6dfc 53380d13 650a7354 766a0abb 81c2c92e 92722c85
   a2bfe8a1 a81a664b c24b8b70 c76c51a3 d192e819 d6990624 f40e3585 106aa070
   19a4c116 1e376c08 2748774c 34b0bcb5 391c0cb3 4ed8aa4a 5b9cca4f 682e6ff3
   748f82ee 78a5636f 84c87814 8cc70208 90befffa a4506ceb bef9a3f7 c67178f2").

(** A hash value: the eight working words. *)
Definition hstate := (N * N * N * N * N * N * N * N)%type.

(** Initial hash value, FIPS 180-4 section 5.3.3. *)
Definition H0 : hstate :=
  (0x6a09e667, 0xbb67ae85, 0x3c6ef372, 0xa54ff53a,
   0x510e527f, 0x9b05688c, 0x1f83d9ab, 0x5be0cd19).

(** Padding, section 5.1.1: a one bit, zeros up to 56 mod 64, then the
    bit length on eight bytes. *)
Definition pad (m : bytes) : bytes :=
  let len := N.of_nat (length m) in
  let zeros := N.to_nat ((119 - len mod 64) mod 64) in
  let bits := 8 * len in
  m ++ x80 :: repeat x00 zeros
    ++ bytes_of_word (bits / 2 ^ 32) ++ bytes_of_word bits.

(** Message schedule, section 6.2.2 step 1.  [rev_w] holds the words
    computed so far, newest first. *)
Fixpoint schedule (n : nat) (rev_w : list N) : list N :=
  match n with
  | O => rev rev_w
  | S n' =>
      let w2 := nth 1 rev_w 0 in
      let w7 := nth 6 rev_w 0 in
      let w15 := nth 14 rev_w 0 in
      let w16 := nth 15 rev_w 0 in
      schedule n' (add32 (add32 (sigma1 w2) w7) (add32 (sigma0 w15) w16) :: rev_w)
  end.

Definition round (s : hstate) (kw : N * N) : hstate :=
  let '(a, b, c, d, e, f, g, h) := s in
  let '(k, w) := kw in
  let t1 := add32 (add32 (add32 h (Sigma1 e)) (add32 (Ch e f g) k)) w in
  let t2 := add32 (Sigma0 a) (Maj a b c) in
  (add32 t1 t2, a, b, c, add32 d t1, e, f, g).

Definition compress (s : hstate) (block : list N) : hstate :=
  let w := schedule 48 (rev block) in
  let '(a, b, c, d, e, f, g, h) := fold_left round (combine K w) s in
  let '(a0, b0, c0, d0, e0, f0, g0, h0) := s in
  (add32 a0 a, add32 b0 b, add32 c0 c, add32 d0 d,
   add32 e0 e, add32 f0 f, add32 g0 g, add32 h0 h).

(** One 64-byte block at a time; [fuel] bounds the number of blocks. *)
Fixpoint blocks (fuel : nat) (s : hstate) (m : bytes) : hstate :=
  match fuel, m with
  | S fuel', _ :: _ => blocks fuel' (compress s (words_of_bytes (firstn 64 m))) (skipn 64 m)
  | _, _ => s
  end.

Definition digest_bytes (s : hstate) : bytes :=
  let '(a, b, c, d, e, f, g, h) := s in
  bytes_of_word a ++ bytes_of_word b ++ bytes_of_word c ++ bytes_of_word d ++
  bytes_of_word e ++ bytes_of_word f ++ bytes_of_word g ++ bytes_of_word h.

(** Modelled from the spec: the 256-bit hash collaborator of section 6,
    which the source takes from Node's [crypto] module; SHA-256 as
    FIPS 180-4 section 6.2 defines it. *)
Definition sha256 (m : bytes) : bytes :=
  let p := pad m in
  digest_bytes (blocks (length p) H0 p).

End SHA256.

(* ================================================================== *)
(** ** AES-256 (FIPS 197) *)
(* ================================================================== *)

Module AES.

(** *** Arithmetic in GF(2^8), on the eight bits of a byte
    (least significant first, as [Byte.to_bits] gives them). *)

Definition bits8 : Type :=
  (bool * (bool * (bool * (bool * (bool * (bool * (bool * bool)))))))%type.

Definition xor8 (x y : bits8) : bits8 :=
  let '(x0, (x1, (x2, (x3, (x4, (x5, (x6, x7))))))) := x in
  let '(y0, (y1, (y2, (y3, (y4, (y5, (y6, y7))))))) := y in
  (xorb x0 y0, (xorb x1 y1, (xorb x2 y2, (xorb x3 y3,
  (xorb x4 y4, (xorb x5 y5, (xorb x6 y6, xorb x7 y7))))))).

(** Multiplication by x: a left shift, reduced by x^8+x^4+x^3+x+1. *)
Definition xtime8 (x : bits8) : bits8 :=
  let '(x0, (x1, (x2, (x3, (x4, (x5, (x6, x7))))))) := x in
  (x7, (xorb x0 x7, (x1, (xorb x2 x7, (xorb x3 x7, (x4, (x5, x6))))))).

Definition mul3_8 (x : bits8) := xor8 (xtime8 x) x.
Definition mul9_8 (x : bits8) := xor8 (xtime8 (xtime8 (xtime8 x))) x.
Definition mul11_8 (x : bits8) :=
  xor8 (xtime8 (xtime8 (xtime8 x))) (xor8 (xtime8 x) x).
Definition mul13_8 (x : bits8) :=
  xor8 (xtime8 (xtime8 (xtime8 x))) (xor8 (xtime8 (xtime8 x)) x).
Definition mul14_8 (x : bits8) :=
  xor8 (xtime8 (xtime8 (xtime8 x))) (xor8 (xtime8 (xtime8 x)) (xtime8 x)).

Definition bxor (a b : byte) : byte :=
  Byte.of_bits (xor8 (Byte.to_bits a) (Byte.to_bits b)).

(** *** The state: four columns of four bytes (section 3.4) *)

Definition word : Type := (byte * byte * byte * byte)%type.
Definition block : Type := (word * word * word * word)%type.

Definition wxor (u v : word) : word :=
  let '(u0, u1, u2, u3) := u in
  let '(v0, v1, v2, v3) := v in
  (bxor u0 v0, bxor u1 v1, bxor u2 v2, bxor u3 v3).

Definition block_xor (s t : block) : block :=
  let '(s0, s1, s2, s3) := s in
  let '(t0, t1, t2, t3) := t in
  (wxor s0 t0, wxor s1 t1, wxor s2 t2, wxor s3 t3).

Definition wmap (f : byte -> byte) (u : word) : word :=
  let '(u0, u1, u2, u3) := u in (f u0, f u1, f u2, f u3).

Definition block_map (f : word -> word) (s : block) : block :=
  let '(s0, s1, s2, s3) := s in (f s0, f s1, f s2, f s3).

Definition zero_block : block :=
  let z := (x00, x00, x00, x00) in (z, z, z, z).

(** Input bytes fill the state column by column. *)
Definition block_of_bytes (l : bytes) : block :=
  let b i := nth i l x00 in
  ((b 0, b 1, b 2, b 3), (b 4, b 5, b 6, b 7),
   (b 8, b 9, b 10, b 11), (b 12, b 13, b 14, b 15)).

Definition bytes_of_word (u : word) : bytes :=
  let '(u0, u1, u2, u3) := u in [u0; u1; u2; u3].

Definition bytes_of_block (s : block) : bytes :=
  let '(s0, s1, s2, s3) := s in
  bytes_of_word s0 ++ bytes_of_word s1 ++ bytes_of_word s2 ++ bytes_of_word s3.

(** *** SubBytes (section 5.1.1, figure 7) and its inverse (figure 14) *)

Definition SBOX : bytes := Eval vm_compute in hex
  "63 7c 77 7b f2 6b 6f c5 30 01 67 2b fe d7 ab 76
   ca 82 c9 7d fa 59 47 f0 ad d4 a2 af 9c a4 72 c0
   b7 fd 93 26 36 3f f7 cc 34 a5 e5 f1 71 d8 31 15
   04 c7 23 c3 18 96 05 9a 07 12 80 e2 eb 27 b2 75
   09 83 2c 1a 1b 6e 5a a0 52 3b d6 b3 29 e3 2f 84
   53 d1 00 ed 20 fc b1 5b 6a cb be 39 4a 4c 58 cf
   d0 ef aa fb 43 4d 33 85 45 f9 02 7f 50 3c 9f a8
   51 a3 40 8f 92 9d 38 f5 bc b6 da 21 10 ff f3 d2
   cd 0c 13 ec 5f 97 44 17 c4 a7 7e 3d 64 5d 19 73
   60 81 4f dc 22 2a 90 88 46 ee b8 14 de 5e 0b db
   e0 32 3a 0a 49 06 24 5c c2 d3 ac 62 91 95 e4 79
   e7 c8 37 6d 8d d5 4e a9 6c 56 f4 ea 65 7a ae 08
   ba 78 25 2e 1c a6 b4 c6 e8 dd 74 1f 4b bd 8b 8a
   70 3e b5 66 48 03 f6 0e 61 35 57 b9 86 c1 1d 9e
   e1 f8 98 11 69 d9 8e 94 9b 1e 87 e9 ce 55 28 df
   8c a1 89 0d bf e6 42 68 41 99 2d 0f b0 54 bb 16".

Definition INV_SBOX : bytes := Eval vm_compute in hex
  "52 09 6a d5 30 36 a5 38 bf 40 a3 9e 81 f3 d7 fb
   7c e3 39 82 9b 2f ff 87 34 8e 43 44 c4 de e9 cb
   54 7b 94 32 a6 c2 23 3d ee 4c 95 0b 42 fa c3 4e
   08 2e a1 66 28 d9 24 b2 76 5b a2 49 6d 8b d1 25
   72 f8 f6 64 86 68 98 16 d4 a4 5c cc 5d 65 b6 92
   6c 70 48 50 fd ed b9 da 5e 15 46 57 a7 8d 9d 84
   90 d8 ab 00 8c bc d3 0a f7 e4 58 05 b8 b3 45 06
   d0 2c 1e 8f ca 3f 0f 02 c1 af bd 03 01 13 8a 6b
   3a 91 11 41 4f 67 dc ea 97 f2 cf ce f0 b4 e6 73
   96 ac 74 22 e7 ad 35 85 e2 f9 37 e8 1c 75 df 6e
   47 f1 1a 71 1d 29 c5 89 6f b7 62 0e aa 18 be 1b
   fc 56 3e 4b c6 d2 79 20 9a db c0 fe 78 cd 5a f4
   1f dd a8 33 88 07 c7 31 b1 12 10 59 27 80 ec 5f
   60 51 7f a9 19 b5 4a 0d 2d e5 7a 9f 93 c9 9c ef
   a0 e0 3b 4d ae 2a f5 b0 c8 eb bb 3c 83 53 99 61
   17 2b 04 7e ba 77 d6 26 e1 69 14 63 55 21 0c 7d".

Definition sub_byte (b : byte) : byte := nth (Byte.to_nat b) SBOX x00.
Definition inv_sub_byte (b : byte) : byte := nth (Byte.to_nat b) INV_SBOX x00.

Definition SubBytes : block -> block := block_map (wmap sub_byte).
Definition InvSubBytes : block -> block := block_map (wmap inv_sub_byte).

(** *** ShiftRows (section 5.1.2): row r rotates left by r columns *)

Definition ShiftRows (s : block) : block :=
  let '((a0, a1, a2, a3), (b0, b1, b2, b3),
        (c0, c1, c2, c3), (d0, d1, d2, d3)) := s in
  ((a0, b1, c2, d3), (b0, c1, d2, a3), (c0, d1, a2, b3), (d0, a1, b2, c3)).

Definition InvShiftRows (s : block) : block :=
  let '((a0, a1, a2, a3), (b0, b1, b2, b3),
        (c0, c1, c2, c3), (d0, d1, d2, d3)) := s in
  ((a0, d1, c2, b3), (b0, a1, d2, c3), (c0, b1, a2, d3), (d0, c1, b2, a3)).

(** *** MixColumns (section 5.1.3) and its inverse (section 5.3.3) *)

Definition mix8 (c : bits8 * bits8 * bits8 * bits8) : bits8 * bits8 * bits8 * bits8 :=
  let '(a0, a1, a2, a3) := c in
  (xor8 (xtime8 a0) (xor8 (mul3_8 a1) (xor8 a2 a3)),
   xor8 a0 (xor8 (xtime8 a1) (xor8 (mul3_8 a2) a3)),
   xor8 a0 (xor8 a1 (xor8 (xtime8 a2) (mul3_8 a3))),
   xor8 (mul3_8 a0) (xor8 a1 (xor8 a2 (xtime8 a3)))).

Definition inv_mix8 (c : bits8 * bits8 * bits8 * bits8) : bits8 * bits8 * bits8 * bits8 :=
  let '(a0, a1, a2, a3) := c in
  (xor8 (mul14_8 a0) (xor8 (mul11_8 a1) (xor8 (mul13_8 a2) (mul9_8 a3))),
   xor8 (mul9_8 a0) (xor8 (mul14_8 a1) (xor8 (mul11_8 a2) (mul13_8 a3))),
   xor8 (mul13_8 a0) (xor8 (mul9_8 a1) (xor8 (mul14_8 a2) (mul11_8 a3))),
   xor8 (mul11_8 a0) (xor8 (mul13_8 a1) (xor8 (mul9_8 a2) (mul14_8 a3)))).

Definition word_bits (u : word) : bits8 * bits8 * bits8 * bits8 :=
  let '(u0, u1, u2, u3) := u in
  (Byte.to_bits u0, Byte.to_bits u1, Byte.to_bits u2, Byte.to_bits u3).

Definition bits_word (c : bits8 * bits8 * bits8 * bits8) : word :=
  let '(c0, c1, c2, c3) := c in
  (Byte.of_bits c0, Byte.of_bits c1, Byte.of_bits c2, Byte.of_bits c3).

Definition mix_column (u : word) : word := bits_word (mix8 (word_bits u)).
Definition inv_mix_column (u : word) : word := bits_word (inv_mix8 (word_bits u)).

Definition MixColumns : block -> block := block_map mix_column.
Definition InvMixColumns : block -> block := block_map inv_mix_column.

(** *** AddRoundKey (section 5.1.4) *)

Definition AddRoundKey (k s : block) : block := block_xor s k.

(** *** Key expansion (section 5.2) for Nk = 8, Nr = 14 *)

Definition RotWord (u : word) : word :=
  let '(u0, u1, u2, u3) := u in (u1, u2, u3, u0).

Definition SubWord : word -> word := wmap sub_byte.

(** Rcon[i] for i = 1..7: the powers of x, in the first byte. *)
Definition Rcon (i : nat) : word :=
  (nth i [x00; x01; x02; x04; x08; x10; x20; x40] x00, x00, x00, x00).

Definition zero_word : word := (x00, x00, x00, x00).

Fixpoint words_of_key (l : bytes) : list word :=
  match l with
  | a :: b :: c :: d :: rest => (a, b, c, d) :: words_of_key rest
  | _ => []
  end.

(** [expand n i w] appends the words w[i], ..., w[i+n-1] to [w]. *)
Fixpoint expand (n i : nat) (w : list word) : list word :=
  match n with
  | O => w
  | S n' =>
      let prev := nth (i - 1) w zero_word in
      let temp :=
        if i mod 8 =? 0 then wxor (SubWord (RotWord prev)) (Rcon (i / 8))
        else if i mod 8 =? 4 then SubWord prev
        else prev in
      expand n' (S i) (w ++ [wxor (nth (i - 8) w zero_word) temp])
  end.

Fixpoint round_keys (w : list word) : list block :=
  match w with
  | a :: b :: c :: d :: rest => (a, b, c, d) :: round_keys rest
  | _ => []
  end.

(** The fifteen round keys of a 32-byte cipher key. *)
Definition KeyExpansion (key : bytes) : list block :=
  round_keys (expand 52 8 (words_of_key key)).

(** *** Cipher (section 5.1) and InvCipher (section 5.3) *)

Record schedule : Type := Schedule {
  first_key : block;
  middle_keys : list block;
  last_key : block
}.

Definition schedule_of (key : bytes) : schedule :=
  let rk := KeyExpansion key in
  {| first_key := nth 0 rk zero_block;
     middle_keys := firstn 13 (skipn 1 rk);
     last_key := nth 14 rk zero_block |}.

Definition round (k s : block) : block :=
  AddRoundKey k (MixColumns (ShiftRows (SubBytes s))).

Definition inv_round (k s : block) : block :=
  InvSubBytes (InvShiftRows (InvMixColumns (AddRoundKey k s))).

Fixpoint rounds (ks : list block) (s : block) : block :=
  match ks with
  | [] => s
  | k :: ks' => rounds ks' (round k s)
  end.

Fixpoint inv_rounds (ks : list block) (s : block) : block :=
  match ks with
  | [] => s
  | k :: ks' => inv_round k (inv_rounds ks' s)
  end.

(** Modelled from the spec: the AES-256 block cipher engine of section
    6, which the source takes from Node's [crypto] module; the cipher
    and inverse cipher of FIPS 197 with fourteen rounds. *)
Definition Cipher (ks : schedule) (s : block) : block :=
  AddRoundKey (last_key ks)
    (ShiftRows (SubBytes (rounds (middle_keys ks) (AddRoundKey (first_key ks) s)))).

Definition InvCipher (ks : schedule) (s : block) : block :=
  AddRoundKey (first_key ks)
    (inv_rounds (middle_keys ks)
      (InvSubBytes (InvShiftRows (AddRoundKey (last_key ks) s)))).

End AES.

(* ================================================================== *)
(** ** JavaScript values and effects *)
(* ================================================================== *)

Module Js.

(** *** Strings

    A JavaScript string is a sequence of 16-bit code units; a unit is
    kept as its high and low byte, so every value of the type is a
    string the program can receive. *)

Definition char16 : Type := (byte * byte)%type.
Definition jsstring : Type := list char16.

Definition unit_value (u : char16) : N :=
  (256 * Byte.to_N (fst u) + Byte.to_N (snd u))%N.

(** The string written as an ASCII literal. *)
Fixpoint js (s : string) : jsstring :=
  match s with
  | EmptyString => []
  | String c rest => (x00, byte_of_N (N_of_ascii c)) :: js rest
  end.

Definition is_high_surrogate (v : N) : bool := ((0xD800 <=? v) && (v <=? 0xDBFF))%N.
Definition is_low_surrogate (v : N) : bool := ((0xDC00 <=? v) && (v <=? 0xDFFF))%N.

(** UTF-8 of one code point. *)
Definition utf8_point (v : N) : bytes :=
  (if v <? 0x80 then [byte_of_N v]
   else if v <? 0x800 then
     [byte_of_N (0xC0 + v / 64); byte_of_N (0x80 + v mod 64)]
   else if v <? 0x10000 then
     [byte_of_N (0xE0 + v / 4096); byte_of_N (0x80 + (v / 64) mod 64);
      byte_of_N (0x80 + v mod 64)]
   else
     [byte_of_N (0xF0 + v / 262144); byte_of_N (0x80 + (v / 4096) mod 64);
      byte_of_N (0x80 + (v / 64) mod 64); byte_of_N (0x80 + v mod 64)])%N.

(** [Buffer.from(s, 'utf-8')]: surrogate pairs become one code point,
    a lone surrogate becomes U+FFFD. *)
Fixpoint utf8 (s : jsstring) : bytes :=
  match s with
  | [] => []
  | u :: rest =>
      let v := unit_value u in
      if is_high_surrogate v then
        match rest with
        | u' :: rest' =>
            let v' := unit_value u' in
            if is_low_surrogate v' then
              utf8_point (0x10000 + (v - 0xD800) * 0x400 + (v' - 0xDC00))%N ++ utf8 rest'
            else utf8_point 0xFFFD%N ++ utf8 rest
        | [] => utf8_point 0xFFFD%N
        end
      else if is_low_surrogate v then utf8_point 0xFFFD%N ++ utf8 rest
      else utf8_point v ++ utf8 rest
  end.

(** *** Exceptions: [new Error(message)] *)

Record Error : Type := mkError { message : string }.

(** *** The world outside the process

    [entropy] is what the operating system's secure random source will
    deliver, byte after byte; [calls] records, oldest first, every
    call made into Node's [crypto] module.  The engine is taken to be
    in working order: it fails on bad arguments and bad input only, not
    for want of memory or entropy. *)

Inductive Call : Type :=
| CallCreateHash
| CallRandomBytes
| CallCreateCipheriv
| CallCreateDecipheriv.

Record World : Type := mkWorld {
  entropy : nat -> byte;
  calls : list Call
}.

Inductive Outcome (A : Type) : Type :=
| Return (a : A)
| Throw (e : Error).
Arguments Return {A} a.
Arguments Throw {A} e.

(** A computation: runs in a world, returns or throws, leaves a world. *)
Definition M (A : Type) : Type := World -> Outcome A * World.

Definition ret {A} (a : A) : M A := fun w => (Return a, w).

Definition throw {A} (e : Error) : M A := fun w => (Throw e, w).

Definition bind {A B} (m : M A) (k : A -> M B) : M B :=
  fun w =>
    match m w with
    | (Return a, w') => k a w'
    | (Throw e, w') => (Throw e, w')
    end.

(** [try { body } catch (error) { handler }] *)
Definition try_catch {A} (body : M A) (handler : Error -> M A) : M A :=
  fun w =>
    match body w with
    | (Return a, w') => (Return a, w')
    | (Throw e, w') => handler e w'
    end.

Definition lift {A} (o : Outcome A) : M A := fun w => (o, w).

Definition log (c : Call) : M unit :=
  fun w => (Return tt, {| entropy := entropy w; calls := calls w ++ [c] |}).

Definition value {A} (r : Outcome A * World) : Outcome A := fst r.

End Js.
Import Js.

Declare Scope js_scope.
Delimit Scope js_scope with js.
Notation "x <- m ;; k" := (bind m (fun x => k))
  (at level 61, m at next level, right associativity) : js_scope.
Notation "m ;; k" := (bind m (fun _ => k))
  (at level 61, right associativity) : js_scope.
Local Open Scope js_scope.

(* ================================================================== *)
(** ** Node's [crypto] module, as far as the cipher uses it *)
(* ================================================================== *)

Module Crypto.

(** *** [createHash(algorithm).update(data).digest()] *)

Record Hash : Type := mkHash { h_data : bytes }.

(** Modelled from the spec: Node's [createHash], the hash collaborator;
    only the algorithm the source names is known to the model. *)
Definition createHash (algorithm : string) : M Hash :=
  log CallCreateHash ;;
  if String.eqb algorithm "sha256" then ret {| h_data := [] |}
  else throw (mkError "Digest method not supported").

Definition hash_update (h : Hash) (data : bytes) : Hash :=
  {| h_data := h_data h ++ data |}.

Definition digest (h : Hash) : bytes := SHA256.sha256 (h_data h).

(** *** [randomBytes(size)]: the next [size] bytes of entropy *)

(** Modelled from the spec: Node's [randomBytes], the secure random
    generator of section 6; it returns exactly [size] bytes, whatever
    bytes the world holds next, and moves on. *)
Definition randomBytes (size : nat) : M bytes :=
  log CallRandomBytes ;;
  fun w =>
    (Return (map (entropy w) (seq 0 size)),
     {| entropy := fun i => entropy w (size + i); calls := calls w |}).

(** *** PKCS7 padding as the cipher engine applies and checks it *)

Definition BLOCK : nat := 16.

Definition byte_of_nat (n : nat) : byte := byte_of_N (N.of_nat n).

(** Fill a partial block: n bytes of value n, n = 16 - length. *)
Definition pad_block (partial : bytes) : bytes :=
  let n := BLOCK - length partial in
  partial ++ repeat (byte_of_nat n) n.

(** The last byte n of a decrypted final block must be in 1..16 and
    the last n bytes must all equal n; they are then dropped. *)
Definition unpad_block (final : bytes) : option bytes :=
  let n := Byte.to_nat (last final x00) in
  if (n =? 0) || (BLOCK <? n) then None
  else if forallb (fun b => Byte.eqb b (last final x00)) (skipn (BLOCK - n) final)
       then Some (firstn (BLOCK - n) final)
       else None.

(** *** Cipher objects: [createCipheriv], [update], [final] *)

Record Cipheriv : Type := mkCipheriv {
  c_keys : AES.schedule;
  c_chain : AES.block;     (* the IV, then the last ciphertext block *)
  c_buf : bytes            (* input not yet making a whole block *)
}.

(** Modelled from the spec: Node's [createCipheriv] and
    [createDecipheriv] for the one algorithm the source names, the CBC
    engine with PKCS7 padding of section 6; the key must have 32 bytes
    and the IV 16. *)
Definition check_params (algorithm : string) (key iv : bytes) : Outcome unit :=
  if negb (String.eqb algorithm "aes-256-cbc") then Throw (mkError "Unknown cipher")
  else if negb (length key =? 32) then Throw (mkError "Invalid key length")
  else if negb (length iv =? BLOCK) then Throw (mkError "Invalid initialization vector")
  else Return tt.

(** A cipher object as [createCipheriv] leaves it: key expanded, the IV
    as chaining value, nothing buffered. *)
Definition fresh_cipher (key iv : bytes) : Cipheriv :=
  {| c_keys := AES.schedule_of key;
     c_chain := AES.block_of_bytes iv;
     c_buf := [] |}.

Definition createCipheriv (algorithm : string) (key iv : bytes) : M Cipheriv :=
  log CallCreateCipheriv ;;
  lift (check_params algorithm key iv) ;;
  ret (fresh_cipher key iv).

(** Encrypt the first [n] whole blocks of [data] in CBC mode. *)
Fixpoint encrypt_blocks (ks : AES.schedule) (n : nat) (chain : AES.block)
    (data : bytes) : bytes * AES.block :=
  match n with
  | O => ([], chain)
  | S n' =>
      let c := AES.Cipher ks (AES.block_xor (AES.block_of_bytes (firstn BLOCK data)) chain) in
      let '(out, chain') := encrypt_blocks ks n' c (skipn BLOCK data) in
      (AES.bytes_of_block c ++ out, chain')
  end.

(** Modelled from the spec: [cipher.update(data)] of the CBC engine.
    Every whole block is encrypted and returned, the rest waits in the
    buffer. *)
Definition cipher_update (c : Cipheriv) (data : bytes) : bytes * Cipheriv :=
  let pending := c_buf c ++ data in
  let n := length pending / BLOCK in
  let '(out, chain') := encrypt_blocks (c_keys c) n (c_chain c) pending in
  (out, {| c_keys := c_keys c; c_chain := chain'; c_buf := skipn (n * BLOCK) pending |}).

(** Modelled from the spec: [cipher.final()] of the CBC engine.  The
    buffer is padded to one block and encrypted. *)
Definition cipher_final (c : Cipheriv) : Outcome bytes :=
  let p := AES.block_of_bytes (pad_block (c_buf c)) in
  Return (AES.bytes_of_block (AES.Cipher (c_keys c) (AES.block_xor p (c_chain c)))).

(** *** Decipher objects: [createDecipheriv], [update], [final] *)

Record Decipheriv : Type := mkDecipheriv {
  d_keys : AES.schedule;
  d_chain : AES.block;
  d_buf : bytes
}.

Definition fresh_decipher (key iv : bytes) : Decipheriv :=
  {| d_keys := AES.schedule_of key;
     d_chain := AES.block_of_bytes iv;
     d_buf := [] |}.

Definition createDecipheriv (algorithm : string) (key iv : bytes) : M Decipheriv :=
  log CallCreateDecipheriv ;;
  lift (check_params algorithm key iv) ;;
  ret (fresh_decipher key iv).

Fixpoint decrypt_blocks (ks : AES.schedule) (n : nat) (chain : AES.block)
    (data : bytes) : bytes * AES.block :=
  match n with
  | O => ([], chain)
  | S n' =>
      let c := AES.block_of_bytes (firstn BLOCK data) in
      let p := AES.block_xor (AES.InvCipher ks c) chain in
      let '(out, chain') := decrypt_blocks ks n' c (skipn BLOCK data) in
      (AES.bytes_of_block p ++ out, chain')
  end.

(** Modelled from the spec: [decipher.update(data)] of the CBC engine.
    Whole blocks are decrypted and returned, except that when the input
    ends on a block boundary the last block is held back: it may be the
    padded one. *)
Definition decipher_update (d : Decipheriv) (data : bytes) : bytes * Decipheriv :=
  let pending := d_buf d ++ data in
  let whole := length pending / BLOCK in
  let n := if length pending mod BLOCK =? 0 then whole - 1 else whole in
  let '(out, chain') := decrypt_blocks (d_keys d) n (d_chain d) pending in
  (out, {| d_keys := d_keys d; d_chain := chain'; d_buf := skipn (n * BLOCK) pending |}).

(** Modelled from the spec: [decipher.final()] of the CBC engine, which
    validates and strips the padding and fails on invalid padding.
    Exactly one block must be waiting, and it must end in valid padding;
    the two failures carry different messages. *)
Definition decipher_final (d : Decipheriv) : Outcome bytes :=
  if negb (length (d_buf d) =? BLOCK) then
    Throw (mkError "error:1C80006B:Provider routines::wrong final block length")
  else
    let c := AES.block_of_bytes (d_buf d) in
    let p := AES.bytes_of_block (AES.block_xor (AES.InvCipher (d_keys d) c) (d_chain d)) in
    match unpad_block p with
    | Some out => Return out
    | None => Throw (mkError "error:1C800064:Provider routines::bad decrypt")
    end.

End Crypto.

(* ================================================================== *)
(** ** The class [AES256Cipher] *)
(* ================================================================== *)

Module AES256Cipher.

(** The key argument, [dek: string | Uint8Array]. *)
Inductive DEK : Type :=
| DekString (s : jsstring)
| DekBytes (b : bytes).

Definition ALGORITHM : string := "aes-256-cbc".
Definition IV_LENGTH : nat := 16.

(** [Buffer.from(dek, 'utf-8')] for a string, [Buffer.from(dek)] for bytes. *)
Definition dekBuffer (dek : DEK) : bytes :=
  match dek with
  | DekString s => utf8 s
  | DekBytes b => b
  end.

Definition deriveKey (dek : DEK) : M bytes :=
  h <- Crypto.createHash "sha256" ;;
  ret (Crypto.digest (Crypto.hash_update h (dekBuffer dek))).

(** [!dek || (typeof dek === 'string' && dek.length === 0) ||
     (dek instanceof Uint8Array && dek.length === 0)] *)
Definition falsy (dek : DEK) : bool :=
  match dek with
  | DekString s => length s =? 0     (* only the empty string is falsy *)
  | DekBytes _ => false              (* an object is never falsy *)
  end.

Definition dek_empty (dek : DEK) : bool :=
  falsy dek
  || match dek with DekString s => length s =? 0 | DekBytes _ => false end
  || match dek with DekBytes b => length b =? 0 | DekString _ => false end.

(** [data] is a [Uint8Array] by its type, so [!data] is false and the
    first test is the one on its length. *)
Definition encrypt (data : bytes) (dek : DEK) : M bytes :=
  if length data =? 0 then
    throw (mkError "Data to encrypt cannot be empty")
  else if dek_empty dek then
    throw (mkError "DEK (Data Encryption Key) cannot be empty")
  else
    try_catch
      (key <- deriveKey dek ;;
       iv <- Crypto.randomBytes IV_LENGTH ;;
       cipher <- Crypto.createCipheriv ALGORITHM key iv ;;
       let '(head, cipher) := Crypto.cipher_update cipher data in
       tail <- lift (Crypto.cipher_final cipher) ;;
       let encrypted := head ++ tail in
       let result := iv ++ encrypted in
       ret result)
      (fun error =>
         throw (mkError ("Encryption failed: " ++ message error))).

Definition decrypt (encryptedData : bytes) (dek : DEK) : M bytes :=
  if length encryptedData <=? IV_LENGTH then
    throw (mkError "Encrypted data is too short or empty (must be > 16 bytes)")
  else if dek_empty dek then
    throw (mkError "DEK (Data Encryption Key) cannot be empty")
  else
    try_catch
      (let buffer := encryptedData in
       let iv := firstn IV_LENGTH buffer in
       let ciphertext := skipn IV_LENGTH buffer in
       key <- deriveKey dek ;;
       decipher <- Crypto.createDecipheriv ALGORITHM key iv ;;
       let '(head, decipher) := Crypto.decipher_update decipher ciphertext in
       tail <- lift (Crypto.decipher_final decipher) ;;
       let decrypted := head ++ tail in
       ret decrypted)
      (fun error =>
         throw (mkError "Decryption failed: Wrong key or tampered data")).

End AES256Cipher.
Import AES256Cipher.

(** The expression [decrypt(encrypt(p, k1), k2)] of a caller: an
    exception of [encrypt] propagates, [decrypt] is then never called. *)
Definition encrypt_then_decrypt (p : bytes) (k1 k2 : DEK) : M bytes :=
  e <- encrypt p k1 ;; decrypt e k2.

(* ================================================================== *)
(** ** The reference: standard AES-256-CBC with PKCS7, in one shot

    Written from the standard's description (and the specification's
    glossary), not from the cipher objects above: whole messages, lists
    of blocks, no buffering. *)
(* ================================================================== *)

Module Reference.

Definition BLOCK_SIZE : nat := 16.

(** Append b bytes each equal to b, b being the number of bytes needed
    to reach the next block boundary, 1 <= b <= 16. *)
Definition pkcs7_pad (m : bytes) : bytes :=
  let b := BLOCK_SIZE - length m mod BLOCK_SIZE in
  m ++ repeat (byte_of_N (N.of_nat b)) b.

(** Validate and strip: the last byte b must satisfy 1 <= b <= 16, the
    message must hold b bytes, and its last b bytes must all equal b. *)
Definition pkcs7_unpad (m : bytes) : option bytes :=
  let b := Byte.to_nat (last m x00) in
  if (1 <=? b) && (b <=? BLOCK_SIZE) && (b <=? length m)
     && forallb (fun x => Byte.to_nat x =? b) (skipn (length m - b) m)
  then Some (firstn (length m - b) m)
  else None.

(** The first [n] 16-byte blocks of a message. *)
Fixpoint split_blocks (n : nat) (m : bytes) : list AES.block :=
  match n with
  | O => []
  | S n' => AES.block_of_bytes (firstn BLOCK_SIZE m) :: split_blocks n' (skipn BLOCK_SIZE m)
  end.

Definition join (bs : list AES.block) : bytes := flat_map AES.bytes_of_block bs.

(** CBC: each plaintext block is combined with the previous ciphertext
    block (the IV for the first one) before encryption. *)
Fixpoint cbc_encrypt (ks : AES.schedule) (prev : AES.block) (ps : list AES.block)
    : list AES.block :=
  match ps with
  | [] => []
  | p :: ps' =>
      let c := AES.Cipher ks (AES.block_xor p prev) in
      c :: cbc_encrypt ks c ps'
  end.

Fixpoint cbc_decrypt (ks : AES.schedule) (prev : AES.block) (cs : list AES.block)
    : list AES.block :=
  match cs with
  | [] => []
  | c :: cs' => AES.block_xor (AES.InvCipher ks c) prev :: cbc_decrypt ks c cs'
  end.

Definition aes256_cbc_pkcs7_encrypt (key iv plaintext : bytes) : bytes :=
  let padded := pkcs7_pad plaintext in
  join (cbc_encrypt (AES.schedule_of key) (AES.block_of_bytes iv)
          (split_blocks (length padded / BLOCK_SIZE) padded)).

Definition aes256_cbc_pkcs7_decrypt (key iv ciphertext : bytes) : option bytes :=
  if length ciphertext mod BLOCK_SIZE =? 0 then
    pkcs7_unpad
      (join (cbc_decrypt (AES.schedule_of key) (AES.block_of_bytes iv)
               (split_blocks (length ciphertext / BLOCK_SIZE) ciphertext)))
  else None.

(** The bytes of the key material: the UTF-8 encoding of a text, a
    byte sequence as it is. *)
Definition key_bytes (k : DEK) : bytes :=
  match k with
  | DekString s => utf8 s
  | DekBytes b => b
  end.

(** The derivation rule: SHA-256 of the key material's bytes. *)
Definition derive (k : DEK) : bytes := SHA256.sha256 (key_bytes k).

(** The envelope of [plaintext] under [k] with a given IV. *)
Definition encrypt_with_iv (plaintext : bytes) (k : DEK) (iv : bytes) : bytes :=
  iv ++ aes256_cbc_pkcs7_encrypt (derive k) iv plaintext.

(** iv = envelope[0:16], ciphertext = envelope[16:], decrypt, unpad. *)
Definition decrypt (envelope : bytes) (k : DEK) : option bytes :=
  aes256_cbc_pkcs7_decrypt (derive k) (firstn 16 envelope) (skipn 16 envelope).

End Reference.

(* ================================================================== *)
(** ** The specification's vocabulary *)
(* ================================================================== *)

Module Vocabulary.

(** The three error kinds of the specification, read off the message
    of the thrown [Error]. *)
Inductive ErrorKind : Type :=
| InvalidInput
| EncryptionFailed
| DecryptionFailed
| Unclassified.

Definition kind_of (e : Error) : ErrorKind :=
  let m := message e in
  if String.eqb m "Data to encrypt cannot be empty"
     || String.eqb m "DEK (Data Encryption Key) cannot be empty"
     || String.eqb m "Encrypted data is too short or empty (must be > 16 bytes)"
  then InvalidInput
  else if String.prefix "Encryption failed: " m then EncryptionFailed
  else if String.prefix "Decryption failed: " m then DecryptionFailed
  else Unclassified.

(** Key material is empty: the empty text or the empty byte sequence. *)
Definition key_material_empty (k : DEK) : Prop :=
  match k with
  | DekString s => s = []
  | DekBytes b => b = []
  end.

(** ceil(a / b) *)
Definition ceil_div (a b : nat) : nat := (a + b - 1) / b.

(** What the secure random source hands to the next [randomBytes(n)]. *)
Definition next_random (n : nat) (w : World) : bytes := map (entropy w) (seq 0 n).

(** A world whose random source delivers the given bytes, then zeros,
    and in which no call has been made yet. *)
Definition world_of (tape : bytes) : World :=
  {| entropy := fun i => nth i tape x00; calls := [] |}.

(** The world a successful [encrypt] leaves: sixteen bytes of entropy
    consumed, three calls made. *)
Definition after_encrypt (w : World) : World :=
  {| entropy := fun i => entropy w (16 + i);
     calls := calls w ++ [CallCreateHash; CallRandomBytes; CallCreateCipheriv] |}.

(** The world a [decrypt] that got past validation leaves. *)
Definition after_decrypt (w : World) : World :=
  {| entropy := entropy w;
     calls := calls w ++ [CallCreateHash; CallCreateDecipheriv] |}.

(** The one error [decrypt] reports for every cryptographic failure. *)
Definition decryption_failed : Error :=
  mkError "Decryption failed: Wrong key or tampered data".

End Vocabulary.
Import Vocabulary.

(* ================================================================== *)
(** ** What callers do with envelopes

    The operations the unit tests and the examples apply to an envelope
    between [encrypt] and [decrypt], and the sequences of calls they
    make. *)
(* ================================================================== *)

Module Callers.

(** [encrypted[i] = encrypted[i] ^ mask]; a typed array ignores a store
    past its end. *)
Definition xor_at (e : bytes) (i : nat) (mask : byte) : bytes :=
  firstn i e ++
  match skipn i e with
  | [] => []
  | b :: rest => AES.bxor b mask :: rest
  end.

(** [encrypted.subarray(0, encrypted.length - n)]; a negative end
    counts from the end of the array. *)
Definition drop_last (e : bytes) (n : nat) : bytes :=
  if n <=? length e then firstn (length e - n) e
  else firstn (length e - (n - length e)) e.

(** [modified = new Uint8Array(encrypted.length + n); modified.set(encrypted)] *)
Definition zero_extend (e : bytes) (n : nat) : bytes := e ++ repeat x00 n.

(** [e1 = cipher.encrypt(p1, k1); e2 = cipher.encrypt(p2, k2)] *)
Definition encrypt_twice (p1 : bytes) (k1 : DEK) (p2 : bytes) (k2 : DEK)
    : M (bytes * bytes) :=
  e1 <- encrypt p1 k1 ;;
  e2 <- encrypt p2 k2 ;;
  ret (e1, e2).

End Callers.

(* ================================================================== *)
(** ** Tactics *)
(* ================================================================== *)

(** Name the eight bits of a byte. *)
Ltac split_bits x :=
  let b0 := fresh x in let b1 := fresh x in let b2 := fresh x in let b3 := fresh x in
  let b4 := fresh x in let b5 := fresh x in let b6 := fresh x in let b7 := fresh x in
  destruct x as (b0 & b1 & b2 & b3 & b4 & b5 & b6 & b7).

(* ================================================================== *)
(** * Properties *)
(* ================================================================== *)

(** ** The block cipher: [InvCipher] undoes [Cipher] *)

Module AESFacts.
Import AES.

Lemma xor8_involutive (x y : bits8) : xor8 (xor8 x y) y = x.
Proof.
  split_bits x; split_bits y; cbn; repeat f_equal; ring.
Qed.

Lemma bxor_involutive (a b : byte) : bxor (bxor a b) b = a.
Proof.
  unfold bxor. rewrite Byte.to_bits_of_bits, xor8_involutive.
  apply Byte.of_bits_to_bits.
Qed.

Lemma wxor_involutive (u v : word) : wxor (wxor u v) v = u.
Proof.
  destruct u as [[[u0 u1] u2] u3], v as [[[v0 v1] v2] v3]; cbv [wxor].
  now rewrite !bxor_involutive.
Qed.

Lemma block_xor_involutive (s t : block) : block_xor (block_xor s t) t = s.
Proof.
  destruct s as [[[s0 s1] s2] s3], t as [[[t0 t1] t2] t3]; cbv [block_xor].
  now rewrite !wxor_involutive.
Qed.

Lemma AddRoundKey_involutive (k s : block) : AddRoundKey k (AddRoundKey k s) = s.
Proof. apply block_xor_involutive. Qed.

(** Figure 14 is the inverse table of figure 7: all 256 entries. *)
Lemma inv_sub_byte_sub_byte (b : byte) : inv_sub_byte (sub_byte b) = b.
Proof. destruct b; reflexivity. Qed.

Lemma InvSubBytes_SubBytes (s : block) : InvSubBytes (SubBytes s) = s.
Proof.
  destruct s as [[[[[[a0 a1] a2] a3] [[[b0 b1] b2] b3]] [[[c0 c1] c2] c3]] [[[d0 d1] d2] d3]].
  cbv [InvSubBytes SubBytes block_map wmap]. now rewrite !inv_sub_byte_sub_byte.
Qed.

Lemma InvShiftRows_ShiftRows (s : block) : InvShiftRows (ShiftRows s) = s.
Proof.
  destruct s as [[[[[[a0 a1] a2] a3] [[[b0 b1] b2] b3]] [[[c0 c1] c2] c3]] [[[d0 d1] d2] d3]].
  reflexivity.
Qed.

(** The two coefficient matrices of section 5.1.3 and 5.3.3 multiply to
    the identity: checked bit by bit in the Boolean ring. *)
Lemma inv_mix8_mix8 c : inv_mix8 (mix8 c) = c.
Proof.
  destruct c as [[[a0 a1] a2] a3].
  split_bits a0; split_bits a1; split_bits a2; split_bits a3.
  cbn; repeat f_equal; ring.
Qed.

Lemma word_bits_bits_word c : word_bits (bits_word c) = c.
Proof.
  destruct c as [[[c0 c1] c2] c3]; cbv [word_bits bits_word].
  now rewrite !Byte.to_bits_of_bits.
Qed.

Lemma bits_word_word_bits u : bits_word (word_bits u) = u.
Proof.
  destruct u as [[[u0 u1] u2] u3]; cbv [word_bits bits_word].
  now rewrite !Byte.of_bits_to_bits.
Qed.

Lemma inv_mix_column_mix_column (u : word) : inv_mix_column (mix_column u) = u.
Proof.
  unfold inv_mix_column, mix_column.
  now rewrite word_bits_bits_word, inv_mix8_mix8, bits_word_word_bits.
Qed.

Lemma InvMixColumns_MixColumns (s : block) : InvMixColumns (MixColumns s) = s.
Proof.
  destruct s as [[[s0 s1] s2] s3]; cbv [InvMixColumns MixColumns block_map].
  now rewrite !inv_mix_column_mix_column.
Qed.

Lemma inv_round_round (k s : block) : inv_round k (round k s) = s.
Proof.
  unfold inv_round, round.
  now rewrite AddRoundKey_involutive, InvMixColumns_MixColumns,
    InvShiftRows_ShiftRows, InvSubBytes_SubBytes.
Qed.

Lemma inv_rounds_rounds (ks : list block) : forall s, inv_rounds ks (rounds ks s) = s.
Proof.
  induction ks as [|k ks IH]; intros s; cbn; [reflexivity|].
  now rewrite IH, inv_round_round.
Qed.

(** Decryption of a block inverts its encryption, whatever the key. *)
Lemma InvCipher_Cipher (ks : schedule) (s : block) : InvCipher ks (Cipher ks s) = s.
Proof.
  unfold InvCipher, Cipher.
  now rewrite AddRoundKey_involutive, InvShiftRows_ShiftRows, InvSubBytes_SubBytes,
    inv_rounds_rounds, AddRoundKey_involutive.
Qed.

Lemma length_bytes_of_block (s : block) : length (bytes_of_block s) = 16.
Proof.
  destruct s as [[[[[[a0 a1] a2] a3] [[[b0 b1] b2] b3]] [[[c0 c1] c2] c3]] [[[d0 d1] d2] d3]].
  reflexivity.
Qed.

Lemma block_of_bytes_of_block (s : block) : block_of_bytes (bytes_of_block s) = s.
Proof.
  destruct s as [[[[[[a0 a1] a2] a3] [[[b0 b1] b2] b3]] [[[c0 c1] c2] c3]] [[[d0 d1] d2] d3]].
  reflexivity.
Qed.

Lemma bytes_of_block_of_bytes (l : bytes) :
  length l = 16 -> bytes_of_block (block_of_bytes l) = l.
Proof.
  intros H.
  do 16 (destruct l as [|? l]; [discriminate H|]).
  destruct l; [reflexivity | discriminate H].
Qed.

End AESFacts.

(** ** Key derivation: the digest has 32 bytes *)

Module SHA256Facts.

Lemma length_digest_bytes (s : SHA256.hstate) : length (SHA256.digest_bytes s) = 32.
Proof.
  destruct s as [[[[[[[a b] c] d] e] f] g] h]. reflexivity.
Qed.

Lemma length_sha256 (m : bytes) : length (SHA256.sha256 m) = 32.
Proof. unfold SHA256.sha256. apply length_digest_bytes. Qed.

End SHA256Facts.

#[global] Opaque AES.Cipher AES.InvCipher AES.schedule_of SHA256.sha256.

(** ** Blocks and chaining *)

Module CbcFacts.
Import AES AESFacts Reference.

Lemma firstn_plus {A} (a b : nat) : forall l : list A,
  firstn (a + b) l = firstn a l ++ firstn b (skipn a l).
Proof.
  induction a as [|a IH]; intros l; [reflexivity|].
  destruct l as [|x l]; cbn [Nat.add firstn skipn app].
  - now rewrite firstn_nil.
  - now rewrite IH.
Qed.

Lemma last_cons {A} (l : list A) : forall x d, last (x :: l) d = last l x.
Proof.
  induction l as [|y l IH]; intros x d; [reflexivity|].
  change (last (x :: y :: l) d) with (last (y :: l) d).
  now rewrite !IH.
Qed.

Lemma length_join (bs : list block) : length (join bs) = 16 * length bs.
Proof.
  induction bs as [|b bs IH]; [reflexivity|].
  unfold join in *. cbn [flat_map]. rewrite length_app, length_bytes_of_block, IH.
  cbn [length]. lia.
Qed.

Lemma join_single (b : block) : join [b] = bytes_of_block b.
Proof. unfold join. cbn [flat_map]. apply app_nil_r. Qed.

Lemma join_app (xs ys : list block) : join (xs ++ ys) = join xs ++ join ys.
Proof. unfold join. apply flat_map_app. Qed.

Lemma length_split_blocks (n : nat) : forall m, length (split_blocks n m) = n.
Proof. induction n as [|n IH]; intros m; cbn; [reflexivity|now rewrite IH]. Qed.

(** Splitting sees only the first 16 n bytes. *)
Lemma split_blocks_app (n : nat) : forall a b,
  16 * n <= length a -> split_blocks n (a ++ b) = split_blocks n a.
Proof.
  induction n as [|n IH]; intros a b H; [reflexivity|].
  cbn [split_blocks]. unfold BLOCK_SIZE.
  rewrite firstn_app, skipn_app.
  replace (16 - length a) with 0 by lia.
  rewrite firstn_O, skipn_O, app_nil_r.
  f_equal. apply IH. rewrite length_skipn. lia.
Qed.

Lemma split_blocks_snoc (n : nat) : forall m,
  split_blocks (S n) m = split_blocks n m ++ [block_of_bytes (firstn 16 (skipn (16 * n) m))].
Proof.
  induction n as [|n IH]; intros m; [reflexivity|].
  change (split_blocks (S (S n)) m)
    with (block_of_bytes (firstn 16 m) :: split_blocks (S n) (skipn 16 m)).
  rewrite IH, skipn_skipn. cbn [split_blocks app]. unfold BLOCK_SIZE.
  now replace (16 * S n) with (16 * n + 16) by lia.
Qed.

Lemma join_split_blocks (n : nat) : forall m,
  16 * n <= length m -> join (split_blocks n m) = firstn (16 * n) m.
Proof.
  induction n as [|n IH]; intros m H; [reflexivity|].
  cbn [split_blocks]. unfold join in *. cbn [flat_map]. unfold BLOCK_SIZE.
  rewrite bytes_of_block_of_bytes by (rewrite length_firstn; lia).
  rewrite IH by (rewrite length_skipn; lia).
  replace (16 * S n) with (16 + 16 * n) by lia.
  apply eq_sym, firstn_plus.
Qed.

Lemma split_blocks_join (bs : list block) : forall rest,
  split_blocks (length bs) (join bs ++ rest) = bs.
Proof.
  induction bs as [|b bs IH]; intros rest; [reflexivity|].
  cbn [length split_blocks]. unfold join in *. cbn [flat_map]. unfold BLOCK_SIZE.
  rewrite <- app_assoc.
  rewrite firstn_app, skipn_app, length_bytes_of_block.
  rewrite firstn_all2 by (rewrite length_bytes_of_block; lia).
  rewrite skipn_all2 by (rewrite length_bytes_of_block; lia).
  cbn [firstn skipn Nat.sub app]. rewrite app_nil_r, block_of_bytes_of_block.
  now rewrite IH.
Qed.

Lemma length_cbc_encrypt ks : forall ps prev, length (cbc_encrypt ks prev ps) = length ps.
Proof. induction ps as [|p ps IH]; intros prev; cbn; [reflexivity|now rewrite IH]. Qed.

Lemma length_cbc_decrypt ks : forall cs prev, length (cbc_decrypt ks prev cs) = length cs.
Proof. induction cs as [|c cs IH]; intros prev; cbn; [reflexivity|now rewrite IH]. Qed.

(** CBC decryption inverts CBC encryption under the same key and IV. *)
Lemma cbc_decrypt_encrypt ks : forall ps iv, cbc_decrypt ks iv (cbc_encrypt ks iv ps) = ps.
Proof.
  induction ps as [|p ps IH]; intros iv; cbn [cbc_encrypt cbc_decrypt]; [reflexivity|].
  now rewrite InvCipher_Cipher, block_xor_involutive, IH.
Qed.

Lemma cbc_encrypt_snoc ks : forall ps prev q,
  cbc_encrypt ks prev (ps ++ [q]) =
  cbc_encrypt ks prev ps ++ [Cipher ks (block_xor q (last (cbc_encrypt ks prev ps) prev))].
Proof.
  induction ps as [|p ps IH]; intros prev q; [reflexivity|].
  cbn [app cbc_encrypt]. now rewrite IH, last_cons.
Qed.

Lemma cbc_decrypt_snoc ks : forall cs prev c,
  cbc_decrypt ks prev (cs ++ [c]) =
  cbc_decrypt ks prev cs ++ [block_xor (InvCipher ks c) (last cs prev)].
Proof.
  induction cs as [|c0 cs IH]; intros prev c; [reflexivity|].
  cbn [app cbc_decrypt]. now rewrite IH, last_cons.
Qed.

(** The cipher object's block loop is CBC encryption of the blocks read. *)
Lemma encrypt_blocks_spec ks (n : nat) : forall chain data,
  Crypto.encrypt_blocks ks n chain data =
  (join (cbc_encrypt ks chain (split_blocks n data)),
   last (cbc_encrypt ks chain (split_blocks n data)) chain).
Proof.
  induction n as [|n IH]; intros chain data; [reflexivity|].
  cbn [Crypto.encrypt_blocks split_blocks cbc_encrypt]. rewrite IH.
  unfold Crypto.BLOCK, BLOCK_SIZE, join. cbn [flat_map].
  now rewrite last_cons.
Qed.

Lemma decrypt_blocks_spec ks (n : nat) : forall chain data,
  Crypto.decrypt_blocks ks n chain data =
  (join (cbc_decrypt ks chain (split_blocks n data)),
   last (split_blocks n data) chain).
Proof.
  induction n as [|n IH]; intros chain data; [reflexivity|].
  cbn [Crypto.decrypt_blocks split_blocks cbc_decrypt]. rewrite IH.
  unfold Crypto.BLOCK, BLOCK_SIZE, join. cbn [flat_map].
  now rewrite last_cons.
Qed.

End CbcFacts.


(** ** PKCS7 *)

Module PaddingFacts.
Import AES AESFacts Reference CbcFacts.

Lemma to_nat_byte_of_nat (n : nat) : n < 256 -> Byte.to_nat (Crypto.byte_of_nat n) = n.
Proof.
  intros H. unfold Crypto.byte_of_nat, byte_of_N.
  rewrite N.mod_small by lia.
  destruct (Byte.of_N (N.of_nat n)) as [b|] eqn:E.
  - apply Byte.to_of_N in E. rewrite Byte.to_nat_via_N, E. apply Nat2N.id.
  - apply Byte.of_N_None_iff in E. lia.
Qed.

Lemma byte_eqb_to_nat (x y : byte) : Byte.eqb x y = (Byte.to_nat x =? Byte.to_nat y).
Proof.
  destruct (Byte.to_nat x =? Byte.to_nat y) eqn:E.
  - apply Nat.eqb_eq in E. apply Byte.byte_dec_lb.
    apply (f_equal Byte.of_nat) in E. rewrite !Byte.of_to_nat in E. congruence.
  - apply Nat.eqb_neq in E. destruct (Byte.eqb x y) eqn:E'; [|reflexivity].
    apply Byte.byte_dec_bl in E'. congruence.
Qed.

Lemma forallb_repeat {A} (f : A -> bool) (x : A) (n : nat) :
  f x = true -> forallb f (repeat x n) = true.
Proof. intros H. induction n; cbn; [reflexivity|now rewrite H]. Qed.

Lemma forallb_pointwise {A} (f g : A -> bool) (l : list A) :
  (forall x, f x = g x) -> forallb f l = forallb g l.
Proof. intros H. induction l as [|x l IH]; cbn; [reflexivity|now rewrite H, IH]. Qed.

Lemma last_app_cons {A} (l l' : list A) (y : A) : forall d,
  last (l ++ y :: l') d = last l' y.
Proof.
  induction l as [|x l IH]; intros d; cbn [app]; rewrite last_cons; [reflexivity|].
  apply IH.
Qed.

Lemma last_app_nonempty {A} (l l' : list A) (d : A) :
  l' <> [] -> last (l ++ l') d = last l' d.
Proof.
  intros H. destruct l' as [|y l']; [congruence|].
  now rewrite last_app_cons, last_cons.
Qed.

Lemma pad_length_bounds (m : bytes) :
  1 <= BLOCK_SIZE - length m mod BLOCK_SIZE <= 16.
Proof.
  unfold BLOCK_SIZE. pose proof (Nat.mod_upper_bound (length m) 16). lia.
Qed.

Lemma length_pkcs7_pad (m : bytes) : length (pkcs7_pad m) = 16 * (length m / 16 + 1).
Proof.
  unfold pkcs7_pad. rewrite length_app, repeat_length. unfold BLOCK_SIZE.
  pose proof (Nat.div_mod_eq (length m) 16).
  pose proof (Nat.mod_upper_bound (length m) 16). lia.
Qed.

Lemma pkcs7_pad_eq (m : bytes) :
  pkcs7_pad m =
  m ++ repeat (Crypto.byte_of_nat (BLOCK_SIZE - length m mod BLOCK_SIZE))
         (BLOCK_SIZE - length m mod BLOCK_SIZE).
Proof. reflexivity. Qed.

(** Unpadding strips exactly what padding appended. *)
Lemma pkcs7_unpad_pad (m : bytes) : pkcs7_unpad (pkcs7_pad m) = Some m.
Proof.
  pose proof (pad_length_bounds m) as Hb.
  unfold pkcs7_unpad. rewrite pkcs7_pad_eq.
  set (b := BLOCK_SIZE - length m mod BLOCK_SIZE) in *.
  assert (Hlast : last (m ++ repeat (Crypto.byte_of_nat b) b) x00 = Crypto.byte_of_nat b).
  { destruct b as [|b']; [lia|].
    rewrite last_app_nonempty by discriminate.
    replace (repeat (Crypto.byte_of_nat (S b')) (S b'))
      with (repeat (Crypto.byte_of_nat (S b')) b' ++ [Crypto.byte_of_nat (S b')]).
    - apply last_last.
    - now rewrite <- repeat_cons. }
  rewrite Hlast, to_nat_byte_of_nat by lia.
  rewrite length_app, repeat_length.
  replace (length m + b - b) with (length m) by lia.
  rewrite skipn_app, firstn_app, Nat.sub_diag, skipn_all, firstn_all.
  cbn [skipn firstn app]. rewrite app_nil_r.
  rewrite forallb_repeat by (rewrite to_nat_byte_of_nat by lia; apply Nat.eqb_refl).
  unfold BLOCK_SIZE.
  replace (1 <=? b) with true by (symmetry; apply Nat.leb_le; lia).
  replace (b <=? 16) with true by (symmetry; apply Nat.leb_le; lia).
  replace (b <=? length m + b) with true by (symmetry; apply Nat.leb_le; lia).
  reflexivity.
Qed.

(** On a message ending in a whole block, the reference's check is
    the cipher engine's check of that last block. *)
Lemma pkcs7_unpad_final (pre final : bytes) :
  length final = 16 ->
  pkcs7_unpad (pre ++ final) = option_map (app pre) (Crypto.unpad_block final).
Proof.
  intros Hlen.
  assert (Hne : final <> []) by (destruct final; [discriminate|congruence]).
  unfold pkcs7_unpad, Crypto.unpad_block, Crypto.BLOCK, BLOCK_SIZE.
  rewrite last_app_nonempty by assumption.
  set (b := Byte.to_nat (last final x00)).
  rewrite length_app, Hlen.
  destruct (b =? 0) eqn:E0.
  { apply Nat.eqb_eq in E0. rewrite E0. reflexivity. }
  apply Nat.eqb_neq in E0.
  destruct (16 <? b) eqn:E16.
  { apply Nat.ltb_lt in E16.
    replace (b <=? 16) with false by (symmetry; apply Nat.leb_gt; lia).
    now rewrite andb_false_r. }
  apply Nat.ltb_ge in E16. cbn [orb].
  replace (1 <=? b) with true by (symmetry; apply Nat.leb_le; lia).
  replace (b <=? 16) with true by (symmetry; apply Nat.leb_le; lia).
  replace (b <=? length pre + 16) with true by (symmetry; apply Nat.leb_le; lia).
  cbn [andb].
  replace (length pre + 16 - b) with (length pre + (16 - b)) by lia.
  rewrite skipn_app, firstn_app_2.
  rewrite skipn_all2 by lia.
  replace (length pre + (16 - b) - length pre) with (16 - b) by lia.
  cbn [app].
  rewrite (forallb_pointwise _ (fun x => Byte.eqb x (last final x00)))
    by (intros x; now rewrite byte_eqb_to_nat).
  destruct (forallb _ _); reflexivity.
Qed.

End PaddingFacts.

(** ** The cipher objects compute the reference *)

Module ObjectFacts.
Import AES AESFacts Reference CbcFacts PaddingFacts.

(** The padded tail block the reference encrypts last is the block
    [final] builds from the buffer [update] left behind. *)
Lemma padded_tail (data : bytes) :
  firstn 16 (skipn (16 * (length data / 16)) (pkcs7_pad data)) =
  Crypto.pad_block (skipn (length data / 16 * 16) data).
Proof.
  pose proof (Nat.div_mod_eq (length data) 16) as Hdm.
  pose proof (Nat.mod_upper_bound (length data) 16) as Hub.
  unfold pkcs7_pad, Crypto.pad_block, Crypto.BLOCK, BLOCK_SIZE.
  rewrite skipn_app, length_skipn.
  replace (16 * (length data / 16) - length data) with 0 by lia.
  rewrite skipn_O.
  replace (length data / 16 * 16) with (16 * (length data / 16)) by lia.
  replace (length data - 16 * (length data / 16)) with (length data mod 16) by lia.
  apply firstn_all2.
  rewrite length_app, length_skipn, repeat_length. lia.
Qed.

(** [update] then [final] on a fresh cipher object: the reference's
    ciphertext. *)
Lemma cipher_run_spec (key iv data : bytes) :
  let run := Crypto.cipher_update (Crypto.fresh_cipher key iv) data in
  exists tail,
    Crypto.cipher_final (snd run) = Return tail /\
    fst run ++ tail = aes256_cbc_pkcs7_encrypt key iv data.
Proof.
  pose proof (Nat.div_mod_eq (length data) 16) as Hdm.
  pose proof (Nat.mod_upper_bound (length data) 16) as Hub.
  cbv zeta. unfold Crypto.cipher_update, Crypto.fresh_cipher.
  cbn [Crypto.c_buf Crypto.c_keys Crypto.c_chain app].
  rewrite encrypt_blocks_spec. cbn [fst snd].
  unfold Crypto.cipher_final. cbn [Crypto.c_buf Crypto.c_keys Crypto.c_chain].
  eexists; split; [reflexivity|].
  unfold aes256_cbc_pkcs7_encrypt, Crypto.BLOCK, BLOCK_SIZE.
  rewrite length_pkcs7_pad.
  replace (16 * (length data / 16 + 1) / 16) with (S (length data / 16))
    by (rewrite Nat.mul_comm, Nat.div_mul; lia).
  rewrite split_blocks_snoc, cbc_encrypt_snoc, join_app.
  unfold pkcs7_pad at 1 2 3. rewrite split_blocks_app by lia.
  now rewrite padded_tail, join_single.
Qed.

(** [update] then [final] on a fresh decipher object: the reference's
    plaintext, or an exception exactly when the reference rejects. *)
Lemma decipher_run_spec (key iv ct : bytes) :
  let run := Crypto.decipher_update (Crypto.fresh_decipher key iv) ct in
  match Crypto.decipher_final (snd run) with
  | Return tail => Some (fst run ++ tail)
  | Throw _ => None
  end = aes256_cbc_pkcs7_decrypt key iv ct.
Proof.
  pose proof (Nat.div_mod_eq (length ct) 16) as Hdm.
  pose proof (Nat.mod_upper_bound (length ct) 16) as Hub.
  cbv zeta. unfold Crypto.decipher_update, Crypto.fresh_decipher.
  cbn [Crypto.d_buf Crypto.d_keys Crypto.d_chain app].
  rewrite decrypt_blocks_spec. cbn [fst snd].
  unfold Crypto.decipher_final. cbn [Crypto.d_buf Crypto.d_keys Crypto.d_chain].
  unfold aes256_cbc_pkcs7_decrypt, Crypto.BLOCK, BLOCK_SIZE.
  destruct (length ct mod 16 =? 0) eqn:Emod.
  - apply Nat.eqb_eq in Emod.
    destruct (length ct / 16) as [|k] eqn:Ediv.
    + (* no block at all *)
      assert (ct = []) as -> by (apply length_zero_iff_nil; lia).
      reflexivity.
    + (* k blocks through [update], the last one through [final] *)
      replace (S k - 1) with k by lia.
      assert (Hbuf : length (skipn (k * 16) ct) = 16) by (rewrite length_skipn; lia).
      rewrite Hbuf. cbn [Nat.eqb negb].
      rewrite split_blocks_snoc, cbc_decrypt_snoc, join_app.
      rewrite join_single.
      replace (16 * k) with (k * 16) by lia.
      rewrite firstn_all2 by lia.
      rewrite pkcs7_unpad_final by apply length_bytes_of_block.
      destruct (Crypto.unpad_block _); reflexivity.
  - apply Nat.eqb_neq in Emod.
    assert (Hbuf : length (skipn (length ct / 16 * 16) ct) = length ct mod 16)
      by (rewrite length_skipn; lia).
    rewrite Hbuf.
    replace (length ct mod 16 =? 16) with false by (symmetry; apply Nat.eqb_neq; lia).
    reflexivity.
Qed.

(** The reference decrypts what the reference encrypts. *)
Lemma reference_round_trip (key iv p : bytes) :
  aes256_cbc_pkcs7_decrypt key iv (aes256_cbc_pkcs7_encrypt key iv p) = Some p.
Proof.
  unfold aes256_cbc_pkcs7_decrypt, aes256_cbc_pkcs7_encrypt.
  set (ks := schedule_of key). set (ivb := block_of_bytes iv).
  set (n := length (pkcs7_pad p) / BLOCK_SIZE).
  assert (Hn : length (pkcs7_pad p) = 16 * n).
  { subst n. rewrite length_pkcs7_pad. unfold BLOCK_SIZE.
    rewrite (Nat.mul_comm 16 (length p / 16 + 1)), Nat.div_mul by lia. lia. }
  set (cs := cbc_encrypt ks ivb (split_blocks n (pkcs7_pad p))).
  assert (Hcs : length cs = n) by (subst cs; now rewrite length_cbc_encrypt, length_split_blocks).
  rewrite length_join, Hcs. unfold BLOCK_SIZE.
  rewrite (Nat.mul_comm 16 n), Nat.Div0.mod_mul, Nat.div_mul by lia.
  cbn [Nat.eqb].
  rewrite <- (app_nil_r (join cs)), <- Hcs at 1.
  rewrite split_blocks_join. subst cs.
  rewrite cbc_decrypt_encrypt, join_split_blocks by lia.
  rewrite <- Hn, firstn_all. apply pkcs7_unpad_pad.
Qed.

End ObjectFacts.

Module ClassFacts.
Import CbcFacts PaddingFacts ObjectFacts.

Lemma length_next_random (n : nat) (w : World) : length (next_random n w) = n.
Proof. unfold next_random. now rewrite length_map, length_seq. Qed.

Lemma deriveKey_run (k : DEK) (w : World) :
  deriveKey k w =
  (Return (Reference.derive k), {| entropy := entropy w; calls := calls w ++ [CallCreateHash] |}).
Proof. reflexivity. Qed.

Lemma randomBytes_run (n : nat) (w : World) :
  Crypto.randomBytes n w =
  (Return (next_random n w),
   {| entropy := fun i => entropy w (n + i); calls := calls w ++ [CallRandomBytes] |}).
Proof. reflexivity. Qed.

Lemma check_params_ok (key iv : bytes) :
  length key = 32 -> length iv = 16 ->
  Crypto.check_params ALGORITHM key iv = Return tt.
Proof.
  intros Hkey Hiv. unfold Crypto.check_params, Crypto.BLOCK. now rewrite Hkey, Hiv.
Qed.

Lemma createCipheriv_run (key iv : bytes) (w : World) :
  length key = 32 -> length iv = 16 ->
  Crypto.createCipheriv ALGORITHM key iv w =
  (Return (Crypto.fresh_cipher key iv),
   {| entropy := entropy w; calls := calls w ++ [CallCreateCipheriv] |}).
Proof.
  intros Hkey Hiv. unfold Crypto.createCipheriv, bind, log, lift, ret.
  now rewrite check_params_ok.
Qed.

Lemma createDecipheriv_run (key iv : bytes) (w : World) :
  length key = 32 -> length iv = 16 ->
  Crypto.createDecipheriv ALGORITHM key iv w =
  (Return (Crypto.fresh_decipher key iv),
   {| entropy := entropy w; calls := calls w ++ [CallCreateDecipheriv] |}).
Proof.
  intros Hkey Hiv. unfold Crypto.createDecipheriv, bind, log, lift, ret.
  now rewrite check_params_ok.
Qed.

Lemma length_derive (k : DEK) : length (Reference.derive k) = 32.
Proof. apply SHA256Facts.length_sha256. Qed.

(** A run of [encrypt] on valid arguments, in full: the envelope is the
    reference's for the IV the random source supplied, sixteen bytes of
    entropy are consumed and three calls are made. *)
Lemma encrypt_run (p : bytes) (k : DEK) (w : World) :
  (length p =? 0) = false -> dek_empty k = false ->
  encrypt p k w = (Return (Reference.encrypt_with_iv p k (next_random 16 w)), after_encrypt w).
Proof.
  intros Hp Hk. unfold encrypt. rewrite Hp, Hk.
  unfold try_catch, bind at 1. rewrite deriveKey_run.
  unfold bind at 1. rewrite randomBytes_run.
  unfold bind at 1. cbn [entropy calls].
  rewrite createCipheriv_run by (apply length_derive || apply length_next_random).
  destruct (cipher_run_spec (Reference.derive k) (next_random IV_LENGTH w) p) as (tail & Hfin & Heq).
  destruct (Crypto.cipher_update _ p) as [head c1]. cbn [fst snd] in Hfin, Heq.
  unfold bind, lift, ret. rewrite Hfin.
  unfold Reference.encrypt_with_iv, after_encrypt, IV_LENGTH in *. cbn [entropy calls].
  now rewrite <- Heq, <- !app_assoc.
Qed.

(** A run of [decrypt] on valid arguments, in full: the reference's
    answer, with every rejection reported by the one generic error. *)
Lemma decrypt_run (e : bytes) (k : DEK) (w : World) :
  (length e <=? IV_LENGTH) = false -> dek_empty k = false ->
  decrypt e k w =
  (match Reference.decrypt e k with
   | Some p => Return p
   | None => Throw decryption_failed
   end, after_decrypt w).
Proof.
  intros He Hk. unfold AES256Cipher.decrypt. rewrite He, Hk.
  apply Nat.leb_gt in He. unfold IV_LENGTH in *.
  unfold try_catch. cbv zeta. unfold bind at 1. rewrite deriveKey_run.
  unfold bind at 1.
  rewrite createDecipheriv_run
    by (apply length_derive || (rewrite length_firstn; lia)).
  pose proof (decipher_run_spec (Reference.derive k) (firstn 16 e) (skipn 16 e)) as Hrun.
  cbv zeta in Hrun.
  destruct (Crypto.decipher_update _ (skipn 16 e)) as [head d1]. cbn [fst snd] in Hrun.
  unfold bind, lift, ret, throw, Reference.decrypt. rewrite <- Hrun.
  unfold after_decrypt. cbn [entropy calls]. rewrite <- !app_assoc.
  destruct (Crypto.decipher_final d1); reflexivity.
Qed.

End ClassFacts.

(** ** The class [AES256Cipher]: validation *)

Module ValidationFacts.
Import CbcFacts ClassFacts.

(** The source's three-way emptiness test decides the specification's
    notion of empty key material. *)
Lemma dek_empty_iff (k : DEK) : dek_empty k = true <-> key_material_empty k.
Proof.
  destruct k as [s|b]; unfold dek_empty, falsy, key_material_empty.
  - destruct s; cbn; [tauto|]. split; [discriminate|discriminate].
  - destruct b; cbn; [tauto|]. split; [discriminate|discriminate].
Qed.

Lemma dek_nonempty (k : DEK) : ~ key_material_empty k -> dek_empty k = false.
Proof.
  intros H. destruct (dek_empty k) eqn:E; [|reflexivity].
  now apply dek_empty_iff in E.
Qed.

Lemma key_material_empty_dec (k : DEK) : key_material_empty k \/ ~ key_material_empty k.
Proof. destruct k as [[|u s]|[|x b]]; cbn; (now left) || (right; discriminate). Qed.

Lemma length_nonempty {A} (l : list A) : l <> [] -> (length l =? 0) = false.
Proof. destruct l; [congruence|reflexivity]. Qed.

Lemma utf8_point_nonempty (v : N) : utf8_point v <> [].
Proof.
  unfold utf8_point.
  destruct (v <? 128)%N; [discriminate|].
  destruct (v <? 2048)%N; [discriminate|].
  destruct (v <? 65536)%N; discriminate.
Qed.

(** A non-empty string has a non-empty UTF-8 encoding. *)
Lemma utf8_nonempty (s : jsstring) : s <> [] -> utf8 s <> [].
Proof.
  destruct s as [|u rest]; [congruence|]. intros _ H.
  cbn [utf8] in H.
  destruct (is_high_surrogate (unit_value u)).
  - destruct rest as [|u' rest'].
    + now apply utf8_point_nonempty in H.
    + destruct (is_low_surrogate (unit_value u'));
        apply app_eq_nil in H; destruct H as [H _];
        now apply utf8_point_nonempty in H.
  - destruct (is_low_surrogate (unit_value u));
      apply app_eq_nil in H; destruct H as [H _];
      now apply utf8_point_nonempty in H.
Qed.

Lemma encrypt_empty_data (k : DEK) (w : World) :
  encrypt [] k w = (Throw (mkError "Data to encrypt cannot be empty"), w).
Proof. reflexivity. Qed.

Lemma encrypt_empty_key (p : bytes) (k : DEK) (w : World) :
  p <> [] -> key_material_empty k ->
  encrypt p k w = (Throw (mkError "DEK (Data Encryption Key) cannot be empty"), w).
Proof.
  intros Hp Hk. unfold encrypt.
  rewrite (length_nonempty Hp). apply dek_empty_iff in Hk. now rewrite Hk.
Qed.

Lemma encrypt_valid (p : bytes) (k : DEK) (w : World) :
  p <> [] -> ~ key_material_empty k ->
  encrypt p k w =
  (Return (Reference.encrypt_with_iv p k (next_random 16 w)), after_encrypt w).
Proof.
  intros Hp Hk. apply encrypt_run; [now apply length_nonempty|now apply dek_nonempty].
Qed.

Lemma decrypt_short (e : bytes) (k : DEK) (w : World) :
  length e <= 16 ->
  decrypt e k w =
  (Throw (mkError "Encrypted data is too short or empty (must be > 16 bytes)"), w).
Proof.
  intros H. unfold decrypt, IV_LENGTH.
  apply Nat.leb_le in H. now rewrite H.
Qed.

Lemma decrypt_empty_key (e : bytes) (k : DEK) (w : World) :
  16 < length e -> key_material_empty k ->
  decrypt e k w = (Throw (mkError "DEK (Data Encryption Key) cannot be empty"), w).
Proof.
  intros He Hk. unfold decrypt, IV_LENGTH.
  apply Nat.leb_gt in He. rewrite He. apply dek_empty_iff in Hk. now rewrite Hk.
Qed.

Lemma decrypt_valid (e : bytes) (k : DEK) (w : World) :
  16 < length e -> ~ key_material_empty k ->
  decrypt e k w =
  (match Reference.decrypt e k with
   | Some p => Return p
   | None => Throw decryption_failed
   end, after_decrypt w).
Proof.
  intros He Hk. apply decrypt_run; [now apply Nat.leb_gt|now apply dek_nonempty].
Qed.

Lemma length_reference_ciphertext (key iv p : bytes) :
  length (Reference.aes256_cbc_pkcs7_encrypt key iv p) = 16 * (length p / 16 + 1).
Proof.
  unfold Reference.aes256_cbc_pkcs7_encrypt.
  rewrite length_join, length_cbc_encrypt, length_split_blocks, PaddingFacts.length_pkcs7_pad.
  unfold Reference.BLOCK_SIZE.
  rewrite (Nat.mul_comm 16 (length p / 16 + 1)), Nat.div_mul by lia. lia.
Qed.

Lemma reference_envelope_round_trip (p : bytes) (k : DEK) (iv : bytes) :
  length iv = 16 ->
  Reference.decrypt (Reference.encrypt_with_iv p k iv) k = Some p.
Proof.
  intros Hiv. unfold Reference.decrypt, Reference.encrypt_with_iv.
  rewrite firstn_app, skipn_app, Hiv, Nat.sub_diag.
  rewrite firstn_all2, skipn_all2 by lia.
  rewrite firstn_O, skipn_O, app_nil_r. cbn [app].
  apply ObjectFacts.reference_round_trip.
Qed.

End ValidationFacts.

(** ** The models against published vectors *)

Module Scenarios.

(** FIPS 180-4, the one-block and the two-block example message. *)
Example sha256_abc :
  SHA256.sha256 (ascii_bytes "abc")
  = hex "ba7816bf8f01cfea414140de5dae2223b00361a396177a9cb410ff61f20015ad".
Proof. vm_compute. reflexivity. Qed.

Example sha256_two_blocks :
  SHA256.sha256 (ascii_bytes "abcdbcdecdefdefgefghfghighijhijkijkljklmklmnlmnomnopnopq")
  = hex "248d6a61d20638b8e5c026930c3e6039a33ce45964ff2167f6ecedd419db06c1".
Proof. vm_compute. reflexivity. Qed.

(** FIPS 197, appendix C.3: AES-256 on one block, both directions. *)
Example aes256_fips197_c3 :
  let ks := AES.schedule_of (hex "000102030405060708090a0b0c0d0e0f101112131415161718191a1b1c1d1e1f") in
  AES.bytes_of_block (AES.Cipher ks (AES.block_of_bytes (hex "00112233445566778899aabbccddeeff")))
  = hex "8ea2b7ca516745bfeafc49904b496089"
  /\ AES.bytes_of_block (AES.InvCipher ks (AES.block_of_bytes (hex "8ea2b7ca516745bfeafc49904b496089")))
     = hex "00112233445566778899aabbccddeeff".
Proof. vm_compute. split; reflexivity. Qed.

(** NIST SP 800-38A, F.2.5 CBC-AES256.Encrypt: the four blocks that
    [tests/cipher/AES256Cipher.nist.test.ts] feeds to Node's cipher. *)
Example cbc_aes256_sp800_38a :
  let key := hex "603deb1015ca71be2b73aef0857d77811f352c073b6108d72d9810a30914dff4" in
  let iv := hex "000102030405060708090a0b0c0d0e0f" in
  let plaintext := hex
    "6bc1bee22e409f96e93d7e117393172a ae2d8a571e03ac9c9eb76fac45af8e51
     30c81c46a35ce411e5fbc1191a0a52ef f69f2445df4f9b17ad2b417be66c3710" in
  let ciphertext := hex
    "f58c4c04d6e5f1ba779eabfb5f7bfbd6 9cfc4e967edb808d679f777bc6702c7d
     39f23369a9d9bacfa530e26304231461 b2eb05e2c39be9fcda6c19078c6a9d1b" in
  fst (Crypto.cipher_update (Crypto.fresh_cipher key iv) plaintext) = ciphertext
  /\ fst (Crypto.decipher_update (Crypto.fresh_decipher key iv)
            (ciphertext ++ hex "3f461796d6b0d6b2e0c2a72b4d80e644")) = plaintext.
Proof. vm_compute. split; reflexivity. Qed.

(** [Buffer.from(s, 'utf-8')]: one, two and three bytes, a surrogate
    pair, a lone surrogate. *)
Example utf8_samples :
  utf8 (js "k") = hex "6b"
  /\ utf8 [(x00, xe9); (x20, xac)] = hex "c3a9 e282ac"
  /\ utf8 [(x5b, xc6); (x94, xa5); (xd8, x3d); (xdd, x10)] = hex "e5af86 e992a5 f09f9490"
  /\ utf8 [(xd8, x00)] = hex "efbfbd"
  /\ utf8 [(xd8, x01)] = hex "efbfbd".
Proof. vm_compute. repeat split; reflexivity. Qed.

(** The scenario of the specification, with an all-zero IV: the
    envelope of "Hello, World!" under "test-key", its decryption under
    "test-key", and its rejection under "wrong-key". *)
Example hello_world_scenario :
  let hello := ascii_bytes "Hello, World!" in
  let envelope := hex "00000000000000000000000000000000 ff1fae1c3714a2ef9a7d19bfa3a984b1" in
  value (encrypt hello (DekString (js "test-key")) (world_of [])) = Return envelope
  /\ value (decrypt envelope (DekString (js "test-key")) (world_of [])) = Return hello
  /\ value (decrypt envelope (DekString (js "wrong-key")) (world_of []))
     = Throw (mkError "Decryption failed: Wrong key or tampered data").
Proof. vm_compute. repeat split; reflexivity. Qed.

(** The decipher object tells a misaligned ciphertext from a bad
    padding; [decrypt] reports both alike. *)
Example engine_errors_differ :
  let key := SHA256.sha256 (ascii_bytes "test-key") in
  let iv := repeat x00 16 in
  let final ct := Crypto.decipher_final (snd (Crypto.decipher_update (Crypto.fresh_decipher key iv) ct)) in
  final (repeat x00 5)
  = Throw (mkError "error:1C80006B:Provider routines::wrong final block length")
  /\ final (repeat x00 16)
     = Throw (mkError "error:1C800064:Provider routines::bad decrypt")
  /\ value (decrypt (iv ++ repeat x00 5) (DekString (js "test-key")) (world_of []))
     = value (decrypt (iv ++ repeat x00 16) (DekString (js "test-key")) (world_of [])).
Proof. vm_compute. repeat split; reflexivity. Qed.

(** The handler of [encrypt] wraps what the engine throws and keeps its
    message. *)
Example encrypt_handler_wraps :
  value (try_catch (Crypto.createCipheriv ALGORITHM [] (repeat x00 16))
           (fun error => throw (mkError ("Encryption failed: " ++ message error)))
           (world_of []))
  = Throw (mkError "Encryption failed: Invalid key length")
  /\ kind_of (mkError "Encryption failed: Invalid key length") = EncryptionFailed.
Proof. vm_compute. split; reflexivity. Qed.

End Scenarios.

(** ** The contract of [AES256Cipher] *)

Module Contract.
Import CbcFacts ClassFacts ValidationFacts.

Lemma encrypt_success_inv (p : bytes) (k : DEK) (w : World) (e : bytes) (w' : World) :
  encrypt p k w = (Return e, w') ->
  p <> [] /\ ~ key_material_empty k
  /\ e = Reference.encrypt_with_iv p k (next_random 16 w) /\ w' = after_encrypt w.
Proof.
  intros H.
  destruct p as [|x p]; [rewrite encrypt_empty_data in H; discriminate|].
  destruct (key_material_empty_dec k) as [Hk|Hk].
  - rewrite encrypt_empty_key in H by (discriminate || assumption). discriminate.
  - rewrite encrypt_valid in H by (discriminate || assumption).
    injection H as <- <-. repeat split; (discriminate || assumption).
Qed.

Lemma length_envelope (p : bytes) (k : DEK) (iv : bytes) :
  length (Reference.encrypt_with_iv p k iv) = length iv + 16 * (length p / 16 + 1).
Proof.
  unfold Reference.encrypt_with_iv. now rewrite length_app, length_reference_ciphertext.
Qed.

Lemma decrypt_reference_envelope (p : bytes) (k : DEK) (iv : bytes) (w : World) :
  length iv = 16 -> ~ key_material_empty k ->
  decrypt (Reference.encrypt_with_iv p k iv) k w = (Return p, after_decrypt w).
Proof.
  intros Hiv Hk.
  rewrite decrypt_valid by (rewrite ?length_envelope; lia || assumption).
  now rewrite reference_envelope_round_trip.
Qed.

Lemma encrypt_then_decrypt_run (p : bytes) (k1 k2 : DEK) (w : World) :
  p <> [] -> ~ key_material_empty k1 -> ~ key_material_empty k2 ->
  encrypt_then_decrypt p k1 k2 w =
  (match Reference.decrypt (Reference.encrypt_with_iv p k1 (next_random 16 w)) k2 with
   | Some q => Return q
   | None => Throw decryption_failed
   end, after_decrypt (after_encrypt w)).
Proof.
  intros Hp Hk1 Hk2. unfold encrypt_then_decrypt, bind.
  rewrite encrypt_valid by assumption.
  apply decrypt_valid; [|assumption].
  rewrite length_envelope, length_next_random. lia.
Qed.

Lemma ceil_div_16 (n : nat) : ceil_div (n + 1) 16 = n / 16 + 1.
Proof.
  unfold ceil_div. replace (n + 1 + 16 - 1) with (n + 1 * 16) by lia.
  now rewrite Nat.div_add.
Qed.

(** C1 (round trip).  For every non-empty byte sequence [p], whatever
    its byte values, and every non-empty key material [k], text or
    bytes, [encrypt] returns an envelope (with whatever IV the random
    source of the world [w] supplies) and [decrypt] of that envelope
    under [k] returns exactly [p]. *)
Theorem round_trip (p : bytes) (k : DEK) (w : World) :
  p <> [] -> ~ key_material_empty k ->
  exists e,
    value (encrypt p k w) = Return e
    /\ firstn 16 e = next_random 16 w
    /\ (forall w', value (decrypt e k w') = Return p)
    /\ value (encrypt_then_decrypt p k k w) = Return p.
Proof.
  intros Hp Hk.
  exists (Reference.encrypt_with_iv p k (next_random 16 w)).
  split; [now rewrite encrypt_valid|].
  split.
  { unfold Reference.encrypt_with_iv.
    rewrite firstn_app, length_next_random, Nat.sub_diag, firstn_O, app_nil_r.
    apply firstn_all2. now rewrite length_next_random. }
  split.
  - intros w'. now rewrite decrypt_reference_envelope by (apply length_next_random || assumption).
  - rewrite encrypt_then_decrypt_run by assumption.
    now rewrite reference_envelope_round_trip by apply length_next_random.
Qed.

Lemma round_trip_witness :
  exists e,
    value (encrypt [x00; xff] (DekBytes [x2a]) (world_of [])) = Return e
    /\ firstn 16 e = next_random 16 (world_of [])
    /\ (forall w', value (decrypt e (DekBytes [x2a]) w') = Return [x00; xff])
    /\ value (encrypt_then_decrypt [x00; xff] (DekBytes [x2a]) (DekBytes [x2a]) (world_of []))
       = Return [x00; xff].
Proof.
  apply round_trip; [discriminate | simpl; discriminate].
Defined.

(** C2 (the envelope is plain standard AES-256-CBC/PKCS7).  For every
    envelope longer than 16 bytes and non-empty key, [decrypt] is the
    reference composition: IV = first 16 bytes, key = SHA-256 of the key
    bytes (the UTF-8 encoding of a text key, the bytes of a byte key),
    reference CBC decryption, PKCS7 validation and stripping, a
    rejection being reported as the decryption error.  Every envelope
    [encrypt] returns is the IV followed by the reference encryption
    under that key and IV.  Hence the reference, given that key,
    decrypts what [encrypt] produced, and [decrypt] decrypts what the
    reference produced. *)
Theorem reference_equivalence :
  (forall e k w, 16 < length e -> ~ key_material_empty k ->
     value (decrypt e k w) =
     match Reference.aes256_cbc_pkcs7_decrypt
             (SHA256.sha256 match k with DekString s => utf8 s | DekBytes b => b end)
             (firstn 16 e) (skipn 16 e) with
     | Some p => Return p
     | None => Throw decryption_failed
     end)
  /\ (forall p k w e w', encrypt p k w = (Return e, w') ->
        e = next_random 16 w ++
            Reference.aes256_cbc_pkcs7_encrypt
              (SHA256.sha256 match k with DekString s => utf8 s | DekBytes b => b end)
              (next_random 16 w) p)
  /\ (forall p k w, p <> [] -> ~ key_material_empty k ->
        exists e,
          value (encrypt p k w) = Return e
          /\ Reference.aes256_cbc_pkcs7_decrypt
               (SHA256.sha256 match k with DekString s => utf8 s | DekBytes b => b end)
               (firstn 16 e) (skipn 16 e) = Some p)
  /\ (forall p k iv w, length iv = 16 -> ~ key_material_empty k ->
        value (decrypt
                 (iv ++ Reference.aes256_cbc_pkcs7_encrypt
                          (SHA256.sha256
                             match k with DekString s => utf8 s | DekBytes b => b end)
                          iv p)
                 k w) = Return p).
Proof.
  split; [|split; [|split]].
  - intros e k w He Hk. now rewrite decrypt_valid.
  - intros p k w e w' H. now apply encrypt_success_inv in H.
  - intros p k w Hp Hk. eexists. rewrite encrypt_valid by assumption.
    split; [reflexivity|].
    apply (@reference_envelope_round_trip p k _ (length_next_random 16 w)).
  - intros p k iv w Hiv Hk.
    exact (f_equal fst (@decrypt_reference_envelope p k iv w Hiv Hk)).
Qed.

Lemma reference_equivalence_witness :
  value (decrypt
           (repeat x07 16
            ++ Reference.aes256_cbc_pkcs7_encrypt
                 (SHA256.sha256 (utf8 (js "k"))) (repeat x07 16) [x01])
           (DekString (js "k")) (world_of [])) = Return [x01].
Proof.
  apply (proj2 (proj2 (proj2 reference_equivalence)) [x01] (DekString (js "k")));
    [reflexivity | simpl; discriminate].
Defined.

(** C3 (length law).  For every non-empty plaintext and non-empty key
    the envelope has 16 + 16 * ceil((len p + 1) / 16) bytes, a whole
    extra block when len p is a multiple of 16; and "Hello, World!"
    (13 bytes) under "test-key" yields 32 bytes. *)
Theorem envelope_length :
  (forall p k w, p <> [] -> ~ key_material_empty k ->
     exists e,
       value (encrypt p k w) = Return e
       /\ length e = 16 + 16 * ceil_div (length p + 1) 16
       /\ 16 * (ceil_div (length p + 1) 16 - 1) < length p + 1 <= 16 * ceil_div (length p + 1) 16
       /\ (length p mod 16 = 0 -> length e = 16 + length p + 16))
  /\ (forall w,
        length (ascii_bytes "Hello, World!") = 13
        /\ exists e,
             value (encrypt (ascii_bytes "Hello, World!") (DekString (js "test-key")) w)
             = Return e
             /\ length e = 32).
Proof.
  assert (Hlen : forall p k w, p <> [] -> ~ key_material_empty k ->
            exists e, value (encrypt p k w) = Return e
                      /\ length e = 16 + 16 * (length p / 16 + 1)).
  { intros p k w Hp Hk. eexists. rewrite encrypt_valid by assumption.
    split; [reflexivity|]. now rewrite length_envelope, length_next_random. }
  split.
  - intros p k w Hp Hk. destruct (Hlen p k w Hp Hk) as (e & He & Hl).
    exists e. rewrite ceil_div_16.
    pose proof (Nat.div_mod_eq (length p) 16).
    pose proof (Nat.mod_upper_bound (length p) 16).
    repeat split; try assumption; lia.
  - intros w. split; [reflexivity|].
    destruct (Hlen (ascii_bytes "Hello, World!") (DekString (js "test-key")) w)
      as (e & He & Hl); [discriminate|simpl; discriminate|].
    exists e. split; [assumption|]. rewrite Hl. reflexivity.
Qed.

Lemma envelope_length_witness :
  exists e,
    value (encrypt (repeat xab 16) (DekString (js "block-aligned-key")) (world_of [])) = Return e
    /\ length e = 16 + 16 * ceil_div (length (repeat xab 16) + 1) 16
    /\ 16 * (ceil_div (length (repeat xab 16) + 1) 16 - 1) < length (repeat xab 16) + 1
         <= 16 * ceil_div (length (repeat xab 16) + 1) 16
    /\ (length (repeat xab 16) mod 16 = 0 -> length e = 16 + length (repeat xab 16) + 16).
Proof.
  apply (proj1 envelope_length); [discriminate | simpl; discriminate].
Defined.

Lemma engine_failure_rejected (key iv ct : bytes) (inner : Error) :
  Crypto.decipher_final (snd (Crypto.decipher_update (Crypto.fresh_decipher key iv) ct))
  = Throw inner ->
  Reference.aes256_cbc_pkcs7_decrypt key iv ct = None.
Proof.
  intros H. pose proof (ObjectFacts.decipher_run_spec key iv ct) as Hrun.
  cbv zeta in Hrun. now rewrite H in Hrun.
Qed.

Lemma misaligned_rejected (key iv ct : bytes) :
  length ct mod 16 <> 0 -> Reference.aes256_cbc_pkcs7_decrypt key iv ct = None.
Proof.
  intros H. unfold Reference.aes256_cbc_pkcs7_decrypt, Reference.BLOCK_SIZE.
  apply Nat.eqb_neq in H. now rewrite H.
Qed.

(** C4 (one error for every cryptographic failure).  Once the two
    validation checks have passed, whatever [decrypt] throws is the one
    error "Decryption failed: Wrong key or tampered data", of kind
    DecryptionFailed: so it is when the ciphertext length is no multiple
    of 16, when the padding is invalid (wrong key, tampered IV or
    ciphertext: the reference rejects), and whatever error the decipher
    object itself threw in [final]. *)
Theorem decrypt_failure_uniform (e : bytes) (k : DEK) (w : World) :
  16 < length e -> ~ key_material_empty k ->
  (forall err w', decrypt e k w = (Throw err, w') ->
     err = mkError "Decryption failed: Wrong key or tampered data"
     /\ kind_of err = DecryptionFailed)
  /\ (length (skipn 16 e) mod 16 <> 0 -> value (decrypt e k w) = Throw decryption_failed)
  /\ (Reference.decrypt e k = None -> value (decrypt e k w) = Throw decryption_failed)
  /\ (forall inner,
        Crypto.decipher_final
          (snd (Crypto.decipher_update
                  (Crypto.fresh_decipher (SHA256.sha256 (dekBuffer k)) (firstn 16 e))
                  (skipn 16 e))) = Throw inner ->
        value (decrypt e k w) = Throw decryption_failed).
Proof.
  intros He Hk. rewrite decrypt_valid by assumption. cbn [value fst].
  split; [|split; [|split]].
  - intros err w' Hthrow.
    destruct (Reference.decrypt e k); [discriminate Hthrow|].
    injection Hthrow as <- _. split; reflexivity.
  - intros Hmis. unfold Reference.decrypt. now rewrite misaligned_rejected.
  - now intros ->.
  - intros inner Hin. unfold Reference.decrypt, Reference.derive.
    change (Reference.key_bytes k) with (dekBuffer k).
    now rewrite (engine_failure_rejected _ _ _ Hin).
Qed.

Lemma decrypt_failure_uniform_witness :
  (forall err w',
     decrypt (repeat x00 21) (DekString (js "test-key")) (world_of []) = (Throw err, w') ->
     err = mkError "Decryption failed: Wrong key or tampered data"
     /\ kind_of err = DecryptionFailed)
  /\ (length (skipn 16 (repeat x00 21)) mod 16 <> 0 ->
      value (decrypt (repeat x00 21) (DekString (js "test-key")) (world_of []))
      = Throw decryption_failed)
  /\ (Reference.decrypt (repeat x00 21) (DekString (js "test-key")) = None ->
      value (decrypt (repeat x00 21) (DekString (js "test-key")) (world_of []))
      = Throw decryption_failed)
  /\ (forall inner,
        Crypto.decipher_final
          (snd (Crypto.decipher_update
                  (Crypto.fresh_decipher (SHA256.sha256 (dekBuffer (DekString (js "test-key"))))
                     (firstn 16 (repeat x00 21)))
                  (skipn 16 (repeat x00 21)))) = Throw inner ->
        value (decrypt (repeat x00 21) (DekString (js "test-key")) (world_of []))
        = Throw decryption_failed).
Proof.
  apply decrypt_failure_uniform; [simpl; lia | simpl; discriminate].
Defined.

(** What [decrypt] does under another key, in general.  For every
    non-empty plaintext and non-empty key materials k1, k2,
    [decrypt(encrypt(p, k1), k2)] gets past validation; it throws the
    decryption error exactly when reference CBC decryption of the
    ciphertext under SHA-256 of k2's bytes does not end in valid PKCS7
    padding, and otherwise returns the unpadded bytes; when the bytes
    of k1 and k2 have the same SHA-256 it returns p. *)
Theorem wrong_key_outcome (p : bytes) (k1 k2 : DEK) (w : World) :
  p <> [] -> ~ key_material_empty k1 -> ~ key_material_empty k2 ->
  exists e,
    value (encrypt p k1 w) = Return e
    /\ value (encrypt_then_decrypt p k1 k2 w) =
       match Reference.aes256_cbc_pkcs7_decrypt
               (SHA256.sha256 match k2 with DekString s => utf8 s | DekBytes b => b end)
               (firstn 16 e) (skipn 16 e) with
       | Some q => Return q
       | None => Throw decryption_failed
       end
    /\ kind_of decryption_failed = DecryptionFailed
    /\ (SHA256.sha256 match k1 with DekString s => utf8 s | DekBytes b => b end
        = SHA256.sha256 match k2 with DekString s => utf8 s | DekBytes b => b end ->
        value (encrypt_then_decrypt p k1 k2 w) = Return p).
Proof.
  intros Hp Hk1 Hk2.
  exists (Reference.encrypt_with_iv p k1 (next_random 16 w)).
  rewrite encrypt_valid, encrypt_then_decrypt_run by assumption.
  split; [reflexivity|]. split; [reflexivity|]. split; [reflexivity|].
  intros Hsame. cbn [value fst].
  pose proof (@reference_envelope_round_trip p k1 _ (length_next_random 16 w)) as Hrt.
  unfold Reference.decrypt, Reference.derive, Reference.key_bytes in *.
  rewrite <- Hsame. now rewrite Hrt.
Qed.

Lemma wrong_key_outcome_witness :
  exists e,
    value (encrypt [x01; x02; x03; x04; x05] (DekString (js "correct-key")) (world_of []))
    = Return e
    /\ value (encrypt_then_decrypt [x01; x02; x03; x04; x05]
                (DekString (js "correct-key")) (DekString (js "wrong-key")) (world_of [])) =
       match Reference.aes256_cbc_pkcs7_decrypt
               (SHA256.sha256 (utf8 (js "wrong-key")))
               (firstn 16 e) (skipn 16 e) with
       | Some q => Return q
       | None => Throw decryption_failed
       end
    /\ kind_of decryption_failed = DecryptionFailed
    /\ (SHA256.sha256 (utf8 (js "correct-key")) = SHA256.sha256 (utf8 (js "wrong-key")) ->
        value (encrypt_then_decrypt [x01; x02; x03; x04; x05]
                 (DekString (js "correct-key")) (DekString (js "wrong-key")) (world_of []))
        = Return [x01; x02; x03; x04; x05]).
Proof.
  apply (@wrong_key_outcome [x01; x02; x03; x04; x05]
           (DekString (js "correct-key")) (DekString (js "wrong-key")) (world_of []));
    [discriminate | simpl; discriminate | simpl; discriminate].
Defined.

(** C5 (key sensitivity) fails on the code.  "test-key" and "test-kex"
    differ in one character, yet with an all-zero IV the envelope of
    "Hello, World!" under the first decrypts under the second without
    any error, to fifteen bytes of garbage: the wrongly decrypted block
    happens to end in the byte 01, a valid padding.  The method's own
    documentation ([@throws] for a wrong key) and the tests "Error
    Handling - Wrong Key" expect an exception here. *)
Lemma wrong_key_accepted :
  let hello := ascii_bytes "Hello, World!" in
  let envelope := hex "00000000000000000000000000000000 ff1fae1c3714a2ef9a7d19bfa3a984b1" in
  let garbage := hex "44537919490f2bef1cdb961257b2ad" in
  DekString (js "test-key") <> DekString (js "test-kex")
  /\ hello <> []
  /\ value (encrypt hello (DekString (js "test-key")) (world_of [])) = Return envelope
  /\ value (decrypt envelope (DekString (js "test-kex")) (world_of [])) = Return garbage
  /\ value (encrypt_then_decrypt hello (DekString (js "test-key")) (DekString (js "test-kex"))
              (world_of [])) = Return garbage
  /\ forall err,
       value (encrypt_then_decrypt hello (DekString (js "test-key")) (DekString (js "test-kex"))
                (world_of [])) <> Throw err.
Proof.
  intros hello envelope garbage.
  assert (H : value (encrypt_then_decrypt hello (DekString (js "test-key"))
                       (DekString (js "test-kex")) (world_of [])) = Return garbage)
    by (vm_compute; reflexivity).
  split; [intros E; injection E as E; discriminate E|].
  split; [discriminate|].
  split; [vm_compute; reflexivity|].
  split; [vm_compute; reflexivity|].
  split; [exact H|].
  intros err. rewrite H. discriminate.
Qed.




Lemma decrypt_throw_inv (e : bytes) (k : DEK) (w : World) (err : Error) (w' : World) :
  decrypt e k w = (Throw err, w') ->
  (length e <= 16 /\ w' = w
   /\ err = mkError "Encrypted data is too short or empty (must be > 16 bytes)")
  \/ (16 < length e /\ key_material_empty k /\ w' = w
      /\ err = mkError "DEK (Data Encryption Key) cannot be empty")
  \/ (16 < length e /\ ~ key_material_empty k /\ w' = after_decrypt w
      /\ err = decryption_failed).
Proof.
  intros H.
  destruct (Nat.le_gt_cases (length e) 16) as [He|He].
  - rewrite decrypt_short in H by assumption. injection H as <- <-. now left.
  - destruct (key_material_empty_dec k) as [Hk|Hk].
    + rewrite decrypt_empty_key in H by assumption. injection H as <- <-.
      right; left. now repeat split.
    + rewrite decrypt_valid in H by assumption.
      destruct (Reference.decrypt e k); [discriminate|]. injection H as <- <-.
      right; right. now repeat split.
Qed.

(** C7 (input validation of [decrypt]).  An envelope of at most 16
    bytes, the empty one included, fails with InvalidInput whatever the
    key; a longer envelope with empty key material fails with
    InvalidInput for the empty key; both before any call into the
    crypto module: the world is untouched. *)
Theorem decrypt_validation (e : bytes) (k : DEK) (w : World) :
  (length e <= 16 ->
     decrypt e k w =
     (Throw (mkError "Encrypted data is too short or empty (must be > 16 bytes)"), w)
     /\ kind_of (mkError "Encrypted data is too short or empty (must be > 16 bytes)")
        = InvalidInput)
  /\ (16 < length e -> key_material_empty k ->
      decrypt e k w = (Throw (mkError "DEK (Data Encryption Key) cannot be empty"), w)
      /\ kind_of (mkError "DEK (Data Encryption Key) cannot be empty") = InvalidInput)
  /\ (forall err w', decrypt e k w = (Throw err, w') -> kind_of err = InvalidInput ->
        w' = w /\ calls w' = calls w /\ (length e <= 16 \/ key_material_empty k)).
Proof.
  split; [|split].
  - intros He. split; [now apply decrypt_short|reflexivity].
  - intros He Hk. split; [now apply decrypt_empty_key|reflexivity].
  - intros err w' H Hkind. apply decrypt_throw_inv in H.
    destruct H as [(He & -> & _)|[(_ & Hk & -> & _)|(_ & _ & _ & ->)]].
    + repeat split. now left.
    + repeat split. now right.
    + discriminate Hkind.
Qed.

Lemma decrypt_validation_witness :
  decrypt (repeat x00 32) (DekString []) (world_of [])
  = (Throw (mkError "DEK (Data Encryption Key) cannot be empty"), world_of [])
  /\ kind_of (mkError "DEK (Data Encryption Key) cannot be empty") = InvalidInput.
Proof.
  apply (proj1 (proj2 (decrypt_validation (repeat x00 32) (DekString []) (world_of []))));
    [simpl; lia | reflexivity].
Defined.

(** C8 (envelope layout).  The first 16 bytes of every envelope
    [encrypt] returns are the 16 bytes the random source handed to that
    call, the rest is the ciphertext, of positive length a multiple of
    16; so two calls that were handed different IVs return different
    envelopes. *)
Theorem envelope_layout :
  (forall p k w e w', encrypt p k w = (Return e, w') ->
     (forall w0, entropy w0 = entropy w ->
        value (Crypto.randomBytes IV_LENGTH w0) = Return (firstn 16 e))
     /\ length (firstn 16 e) = 16
     /\ skipn 16 e =
        Reference.aes256_cbc_pkcs7_encrypt (SHA256.sha256 (dekBuffer k)) (firstn 16 e) p
     /\ 0 < length (skipn 16 e)
     /\ length (skipn 16 e) mod 16 = 0
     /\ e = firstn 16 e ++ skipn 16 e)
  /\ (forall p1 k1 w1 e1 w1' p2 k2 w2 e2 w2',
        encrypt p1 k1 w1 = (Return e1, w1') ->
        encrypt p2 k2 w2 = (Return e2, w2') ->
        next_random 16 w1 <> next_random 16 w2 ->
        e1 <> e2).
Proof.
  assert (Hiv : forall p k w e w', encrypt p k w = (Return e, w') ->
            firstn 16 e = next_random 16 w
            /\ skipn 16 e = Reference.aes256_cbc_pkcs7_encrypt
                              (SHA256.sha256 (dekBuffer k)) (next_random 16 w) p).
  { intros p k w e w' H. apply encrypt_success_inv in H. destruct H as (_ & _ & -> & _).
    unfold Reference.encrypt_with_iv.
    rewrite firstn_app, skipn_app, length_next_random, Nat.sub_diag, firstn_O, skipn_O.
    rewrite firstn_all2, skipn_all2 by (rewrite length_next_random; lia).
    now rewrite app_nil_r. }
  split.
  - intros p k w e w' H. destruct (Hiv _ _ _ _ _ H) as (Hfirst & Hrest).
    assert (Hlen : length (skipn 16 e) = 16 * (length p / 16 + 1))
      by (now rewrite Hrest, length_reference_ciphertext).
    repeat split.
    + intros w0 Hw0. rewrite randomBytes_run, Hfirst. unfold next_random. now rewrite Hw0.
    + now rewrite Hfirst, length_next_random.
    + now rewrite Hrest, Hfirst.
    + lia.
    + now rewrite Hlen, Nat.mul_comm, Nat.Div0.mod_mul.
    + symmetry. apply firstn_skipn.
  - intros p1 k1 w1 e1 w1' p2 k2 w2 e2 w2' H1 H2 Hne Heq. subst e2.
    apply Hne. destruct (Hiv _ _ _ _ _ H1) as (<- & _).
    now destruct (Hiv _ _ _ _ _ H2) as (<- & _).
Qed.

Lemma envelope_layout_witness :
  let w := world_of (hex "000102030405060708090a0b0c0d0e0f") in
  let k := DekString (js "test-key") in
  let e := Reference.encrypt_with_iv [x2a] k (next_random 16 w) in
  (forall w0, entropy w0 = entropy w ->
     value (Crypto.randomBytes IV_LENGTH w0) = Return (firstn 16 e))
  /\ length (firstn 16 e) = 16
  /\ skipn 16 e =
     Reference.aes256_cbc_pkcs7_encrypt (SHA256.sha256 (dekBuffer k)) (firstn 16 e) [x2a]
  /\ 0 < length (skipn 16 e)
  /\ length (skipn 16 e) mod 16 = 0
  /\ e = firstn 16 e ++ skipn 16 e.
Proof.
  intros w k e.
  apply (proj1 envelope_layout [x2a] k w e (after_encrypt w)).
  apply encrypt_valid; [discriminate | simpl; discriminate].
Defined.

(** C9, as the code has it.  Key derivation returns the same 32 bytes
    for the same key material in every world and consumes no entropy;
    a text key derives the key of its UTF-8 bytes, for every string;
    and for every non-empty string [s] and non-empty plaintext [p],
    encrypting under the text and decrypting under its UTF-8 bytes, or
    the other way round, returns [p]. *)
Theorem text_key_is_its_utf8_bytes :
  (forall k w,
     exists key,
       length key = 32
       /\ (forall w', value (deriveKey k w') = Return key)
       /\ entropy (snd (deriveKey k w)) = entropy w)
  /\ (forall s w,
        value (deriveKey (DekString s) w) = value (deriveKey (DekBytes (utf8 s)) w))
  /\ (forall s p w, s <> [] -> p <> [] ->
        value (encrypt_then_decrypt p (DekString s) (DekBytes (utf8 s)) w) = Return p
        /\ value (encrypt_then_decrypt p (DekBytes (utf8 s)) (DekString s) w) = Return p).
Proof.
  split; [|split].
  - intros k w. exists (Reference.derive k).
    split; [apply length_derive|]. split; [|reflexivity].
    intros w'. now rewrite deriveKey_run.
  - intros s w. now rewrite !deriveKey_run.
  - intros s p w Hs Hp.
    assert (Htext : ~ key_material_empty (DekString s)) by exact Hs.
    assert (Hraw : ~ key_material_empty (DekBytes (utf8 s))) by exact (utf8_nonempty Hs).
    rewrite !encrypt_then_decrypt_run by assumption. cbn [value fst].
    split.
    + change (Reference.decrypt ?e (DekBytes (utf8 s)))
        with (Reference.decrypt e (DekString s)).
      now rewrite reference_envelope_round_trip by apply length_next_random.
    + change (Reference.decrypt ?e (DekString s))
        with (Reference.decrypt e (DekBytes (utf8 s))).
      now rewrite reference_envelope_round_trip by apply length_next_random.
Qed.

Lemma text_key_is_its_utf8_bytes_witness :
  value (encrypt_then_decrypt [x01; x02; x03] (DekString (js "my-secret-key"))
           (DekBytes (utf8 (js "my-secret-key"))) (world_of [])) = Return [x01; x02; x03]
  /\ value (encrypt_then_decrypt [x01; x02; x03] (DekBytes (utf8 (js "my-secret-key")))
              (DekString (js "my-secret-key")) (world_of [])) = Return [x01; x02; x03].
Proof.
  apply (proj2 (proj2 text_key_is_its_utf8_bytes)); discriminate.
Defined.

(** C9 as stated fails at the empty string: [encrypt] rejects the
    empty text key, so the composition throws instead of returning the
    plaintext. *)
Lemma empty_text_key_rejected :
  [x01] <> @nil byte
  /\ utf8 [] = []
  /\ value (encrypt_then_decrypt [x01] (DekString []) (DekBytes (utf8 [])) (world_of []))
     = Throw (mkError "DEK (Data Encryption Key) cannot be empty")
  /\ value (encrypt_then_decrypt [x01] (DekBytes (utf8 [])) (DekString []) (world_of []))
     = Throw (mkError "DEK (Data Encryption Key) cannot be empty").
Proof.
  split; [discriminate|]. split; [reflexivity|]. split; reflexivity.
Qed.

(** C10 (order of the checks).  With empty plaintext and empty key
    material [encrypt] reports the empty plaintext; with an envelope of
    at most 16 bytes and empty key material [decrypt] reports the
    envelope: the data check comes before the key check. *)
Theorem validation_order :
  (forall k w, key_material_empty k ->
     encrypt [] k w = (Throw (mkError "Data to encrypt cannot be empty"), w))
  /\ (forall e k w, length e <= 16 -> key_material_empty k ->
        decrypt e k w =
        (Throw (mkError "Encrypted data is too short or empty (must be > 16 bytes)"), w))
  /\ kind_of (mkError "Data to encrypt cannot be empty") = InvalidInput
  /\ kind_of (mkError "Encrypted data is too short or empty (must be > 16 bytes)")
     = InvalidInput
  /\ mkError "Data to encrypt cannot be empty"
     <> mkError "DEK (Data Encryption Key) cannot be empty"
  /\ mkError "Encrypted data is too short or empty (must be > 16 bytes)"
     <> mkError "DEK (Data Encryption Key) cannot be empty".
Proof.
  split; [|split; [|split; [|split; [|split]]]].
  - intros k w _. apply encrypt_empty_data.
  - intros e k w He _. now apply decrypt_short.
  - reflexivity.
  - reflexivity.
  - discriminate.
  - discriminate.
Qed.

Lemma validation_order_witness :
  encrypt [] (DekString []) (world_of [])
  = (Throw (mkError "Data to encrypt cannot be empty"), world_of [])
  /\ decrypt (repeat x00 16) (DekBytes []) (world_of [])
     = (Throw (mkError "Encrypted data is too short or empty (must be > 16 bytes)"),
        world_of []).
Proof.
  split.
  - apply (proj1 validation_order). reflexivity.
  - apply (proj1 (proj2 validation_order)); [simpl; lia | reflexivity].
Defined.

End Contract.

(* ================================================================== *)
(** * Beyond the contract *)
(* ================================================================== *)

(** ** Exclusive or on bytes and blocks *)

Module XorFacts.
Import AES AESFacts.

Ltac pairwise_ring :=
  repeat match goal with |- (_, _) = (_, _) => apply f_equal2 end; ring.

Lemma xor8_assoc (x y z : bits8) : xor8 x (xor8 y z) = xor8 (xor8 x y) z.
Proof. split_bits x; split_bits y; split_bits z; cbn; pairwise_ring. Qed.

Lemma xor8_comm (x y : bits8) : xor8 x y = xor8 y x.
Proof. split_bits x; split_bits y; cbn; pairwise_ring. Qed.

Lemma bxor_assoc (a b c : byte) : bxor a (bxor b c) = bxor (bxor a b) c.
Proof. unfold bxor. now rewrite !Byte.to_bits_of_bits, xor8_assoc. Qed.

Lemma bxor_comm (a b : byte) : bxor a b = bxor b a.
Proof. unfold bxor. now rewrite xor8_comm. Qed.

Lemma bxor_zero (a : byte) : bxor a x00 = a.
Proof.
  unfold bxor. change (Byte.to_bits x00)
    with (false, (false, (false, (false, (false, (false, (false, false))))))).
  rewrite <- (Byte.of_bits_to_bits a) at 2.
  destruct (Byte.to_bits a) as (b0 & b1 & b2 & b3 & b4 & b5 & b6 & b7).
  cbn. now rewrite !xorb_false_r.
Qed.

Lemma bxor_self (a : byte) : bxor a a = x00.
Proof.
  unfold bxor. destruct (Byte.to_bits a) as (b0 & b1 & b2 & b3 & b4 & b5 & b6 & b7).
  cbn. now rewrite !xorb_nilpotent.
Qed.

(** A byte changes under a non-zero mask. *)
Lemma bxor_changes (a m : byte) : m <> x00 -> bxor a m <> a.
Proof.
  intros Hm H. apply Hm.
  rewrite <- (bxor_involutive m a), (bxor_comm m a), H. apply bxor_self.
Qed.

End XorFacts.

(** ** Tampering with the initialization vector *)

Module IvFacts.
Import AES AESFacts XorFacts Callers CbcFacts.

Ltac sixteen l H :=
  do 16 (destruct l as [|? l]; [discriminate H|]);
  destruct l; [|discriminate H].

#[local] Opaque bxor.

(** Xoring a mask into byte [i] of the IV xors it into byte [i] of the
    block decrypted against that IV. *)
Lemma iv_mask_block (X : block) (iv : bytes) (i : nat) (m : byte) :
  length iv = 16 -> i < 16 ->
  bytes_of_block (block_xor X (block_of_bytes (xor_at iv i m)))
  = xor_at (bytes_of_block (block_xor X (block_of_bytes iv))) i m.
Proof.
  intros Hiv Hi.
  destruct X as [[[[[[a0 a1] a2] a3] [[[b0 b1] b2] b3]] [[[c0 c1] c2] c3]] [[[d0 d1] d2] d3]].
  sixteen iv Hiv.
  do 16 (destruct i as [|i]; [cbn; now rewrite bxor_assoc|]).
  lia.
Qed.

Lemma length_xor_at (e : bytes) (i : nat) (m : byte) : length (xor_at e i m) = length e.
Proof.
  unfold xor_at. rewrite <- (firstn_skipn i e) at 3.
  rewrite !length_app. destruct (skipn i e); reflexivity.
Qed.

(** A store below [length a] stays in [a]. *)
Lemma xor_at_app_l (a b : bytes) (i : nat) (m : byte) :
  i < length a -> xor_at (a ++ b) i m = xor_at a i m ++ b.
Proof.
  intros Hi. unfold xor_at.
  rewrite firstn_app, skipn_app.
  replace (i - length a) with 0 by lia. rewrite firstn_O, skipn_O, app_nil_r.
  destruct (skipn i a) as [|x rest] eqn:E.
  - apply (f_equal (@length byte)) in E. rewrite length_skipn in E. cbn in E. lia.
  - cbn [app]. now rewrite <- app_assoc.
Qed.

Lemma xor_at_app_r (a b : bytes) (i : nat) (m : byte) :
  length a <= i -> xor_at (a ++ b) i m = a ++ xor_at b (i - length a) m.
Proof.
  intros Hi. unfold xor_at.
  rewrite firstn_app, skipn_app, firstn_all2, skipn_all2 by lia.
  cbn [app]. now rewrite <- app_assoc.
Qed.

Lemma join_cons (b : block) (bs : list block) :
  Reference.join (b :: bs) = bytes_of_block b ++ Reference.join bs.
Proof. reflexivity. Qed.

(** Only the first plaintext block depends on the IV. *)
Lemma iv_mask_plaintext (ks : schedule) (iv ct : bytes) (n i : nat) (m : byte) :
  length iv = 16 -> i < 16 ->
  Reference.join (Reference.cbc_decrypt ks (block_of_bytes (xor_at iv i m))
                    (Reference.split_blocks (S n) ct))
  = xor_at (Reference.join (Reference.cbc_decrypt ks (block_of_bytes iv)
                              (Reference.split_blocks (S n) ct))) i m.
Proof.
  intros Hiv Hi. cbn [Reference.split_blocks Reference.cbc_decrypt].
  rewrite !join_cons, iv_mask_block by assumption.
  symmetry. apply xor_at_app_l.
  now rewrite length_xor_at || rewrite length_bytes_of_block.
Qed.

(** What the reference decrypts before unpadding, on its own output:
    the padded plaintext. *)
Lemma reference_decrypt_padded (key iv p : bytes) :
  let ct := Reference.aes256_cbc_pkcs7_encrypt key iv p in
  length ct = 16 * (length p / 16 + 1)
  /\ Reference.join
       (Reference.cbc_decrypt (schedule_of key) (block_of_bytes iv)
          (Reference.split_blocks (length ct / 16) ct))
     = Reference.pkcs7_pad p.
Proof.
  cbv zeta. split; [apply ValidationFacts.length_reference_ciphertext|].
  rewrite ValidationFacts.length_reference_ciphertext.
  rewrite (Nat.mul_comm 16), Nat.div_mul by lia.
  unfold Reference.aes256_cbc_pkcs7_encrypt.
  rewrite PaddingFacts.length_pkcs7_pad. unfold Reference.BLOCK_SIZE.
  rewrite (Nat.mul_comm 16), Nat.div_mul by lia.
  set (n := length p / 16 + 1).
  set (cs := Reference.cbc_encrypt _ _ _).
  assert (Hcs : length cs = n)
    by (subst cs; now rewrite length_cbc_encrypt, length_split_blocks).
  rewrite <- (app_nil_r (Reference.join cs)), <- Hcs.
  rewrite split_blocks_join. subst cs.
  rewrite cbc_decrypt_encrypt, join_split_blocks
    by (rewrite PaddingFacts.length_pkcs7_pad; lia).
  apply firstn_all2. rewrite PaddingFacts.length_pkcs7_pad. lia.
Qed.

(** A run of [decrypt] on an envelope whose IV byte [i] was xored with
    [m]: the padding check sees the padded plaintext with byte [i]
    xored with [m]. *)
Lemma iv_tampered_run (p : bytes) (k : DEK) (iv : bytes) (i : nat) (m : byte) (w : World) :
  length iv = 16 -> i < 16 -> ~ key_material_empty k ->
  decrypt (xor_at (Reference.encrypt_with_iv p k iv) i m) k w =
  (match Reference.pkcs7_unpad (xor_at (Reference.pkcs7_pad p) i m) with
   | Some q => Return q
   | None => Throw decryption_failed
   end, after_decrypt w).
Proof.
  intros Hiv Hi Hk.
  destruct (reference_decrypt_padded (Reference.derive k) iv p) as (Hlen & Hpad).
  unfold Reference.encrypt_with_iv.
  rewrite xor_at_app_l by lia.
  rewrite ValidationFacts.decrypt_valid
    by (rewrite ?length_app, ?length_xor_at, ?Hlen; lia || assumption).
  unfold Reference.decrypt.
  rewrite firstn_app, skipn_app, length_xor_at, Hiv, Nat.sub_diag.
  rewrite firstn_all2, skipn_all2 by (rewrite length_xor_at; lia).
  rewrite firstn_O, skipn_O, app_nil_r. cbn [app].
  unfold Reference.aes256_cbc_pkcs7_decrypt, Reference.BLOCK_SIZE.
  rewrite Hlen, (Nat.mul_comm 16), Nat.Div0.mod_mul. cbn [Nat.eqb].
  rewrite (Nat.mul_comm (length p / 16 + 1)), Hlen, (Nat.mul_comm 16), Nat.div_mul in * by lia.
  replace (length p / 16 + 1) with (S (length p / 16)) in * by lia.
  now rewrite iv_mask_plaintext, Hpad by assumption.
Qed.

End IvFacts.

Module IvPadding.
Import AES AESFacts XorFacts Callers CbcFacts PaddingFacts IvFacts.

(** A mask on a plaintext byte leaves the padding alone. *)
Lemma pad_xor_at_data (p : bytes) (i : nat) (m : byte) :
  i < length p ->
  xor_at (Reference.pkcs7_pad p) i m = Reference.pkcs7_pad (xor_at p i m).
Proof.
  intros Hi. rewrite !pkcs7_pad_eq, length_xor_at. now apply xor_at_app_l.
Qed.

Lemma unpad_masked_data (p : bytes) (i : nat) (m : byte) :
  i < length p ->
  Reference.pkcs7_unpad (xor_at (Reference.pkcs7_pad p) i m) = Some (xor_at p i m).
Proof. intros Hi. rewrite pad_xor_at_data by assumption. apply pkcs7_unpad_pad. Qed.

Lemma xor_at_repeat (x : byte) (n j : nat) (m : byte) :
  j < n ->
  xor_at (repeat x n) j m = repeat x j ++ bxor x m :: repeat x (n - j - 1).
Proof.
  intros Hj. unfold xor_at.
  replace n with (j + S (n - j - 1)) at 1 2 by lia.
  rewrite repeat_app, firstn_app, skipn_app, repeat_length.
  rewrite firstn_all2, skipn_all2 by (rewrite repeat_length; lia).
  rewrite Nat.sub_diag, firstn_O, skipn_O, app_nil_r. reflexivity.
Qed.

Lemma to_nat_inj (x y : byte) : Byte.to_nat x = Byte.to_nat y -> x = y.
Proof.
  intros H. apply (f_equal Byte.of_nat) in H. rewrite !Byte.of_to_nat in H. congruence.
Qed.

(** A non-zero mask on a padding byte other than the last one breaks
    the padding. *)
Lemma unpad_masked_padding (p : bytes) (i : nat) (m : byte) :
  length p <= i -> i < 15 -> m <> x00 ->
  Reference.pkcs7_unpad (xor_at (Reference.pkcs7_pad p) i m) = None.
Proof.
  intros Hlo Hhi Hm.
  assert (Hmod : length p mod 16 = length p) by (apply Nat.mod_small; lia).
  rewrite pkcs7_pad_eq. unfold Reference.BLOCK_SIZE. rewrite Hmod.
  set (n := 16 - length p). set (bn := Crypto.byte_of_nat n).
  assert (Hn : n = 16 - length p) by reflexivity.
  rewrite xor_at_app_r by assumption.
  rewrite xor_at_repeat by lia.
  set (j := i - length p). assert (Hj : j = i - length p) by reflexivity.
  unfold Reference.pkcs7_unpad.
  assert (Htail : n - j - 1 = S (n - j - 2)) by lia.
  assert (Hlast : last (p ++ repeat bn j ++ bxor bn m :: repeat bn (n - j - 1)) x00 = bn).
  { rewrite Htail. rewrite app_assoc.
    change (bxor bn m :: repeat bn (S (n - j - 2)))
      with ([bxor bn m] ++ repeat bn (S (n - j - 2))).
    rewrite app_assoc. rewrite last_app_nonempty by discriminate.
    cbn [repeat]. rewrite repeat_cons. apply last_last. }
  assert (Hbn : Byte.to_nat bn = n) by (apply to_nat_byte_of_nat; lia).
  rewrite Hlast, !Hbn.
  rewrite !length_app, repeat_length. cbn [length]. rewrite repeat_length.
  replace (length p + (j + S (n - j - 1)) - n) with (length p) by lia.
  rewrite skipn_app, Nat.sub_diag, skipn_all, skipn_O. cbn [app].
  rewrite forallb_app. cbn [forallb].
  replace (Byte.to_nat (bxor bn m) =? n) with false.
  - now rewrite !andb_false_r.
  - symmetry. apply Nat.eqb_neq. intros H.
    apply (@bxor_changes bn m Hm). apply to_nat_inj. now rewrite H.
Qed.

End IvPadding.

(** ** The last two blocks decide *)

Module TailFacts.
Import AES AESFacts CbcFacts PaddingFacts.

(** The plaintext block the padding check reads: the last ciphertext
    block decrypted against the one before it. *)
Lemma final_plain_block (ks : schedule) (iv : block) (ct : bytes) (j : nat) :
  length ct = 16 * S (S j) ->
  Reference.join (Reference.cbc_decrypt ks iv (Reference.split_blocks (S (S j)) ct))
  = Reference.join (Reference.cbc_decrypt ks iv (Reference.split_blocks (S j) ct))
    ++ bytes_of_block
         (block_xor (InvCipher ks (block_of_bytes (skipn (16 * S j) ct)))
                    (block_of_bytes (firstn 16 (skipn (16 * j) ct)))).
Proof.
  intros Hlen.
  rewrite (split_blocks_snoc (S j)), cbc_decrypt_snoc, join_app, join_single.
  rewrite (split_blocks_snoc j), last_last.
  rewrite (firstn_all2 (skipn (16 * S j) ct)) by (rewrite length_skipn; lia).
  reflexivity.
Qed.

(** On an envelope of at least 48 bytes, a multiple of 16, split
    before its last 32 bytes: the result is some prefix as long as the
    first part, followed by what the padding check leaves of a block
    that depends on the key and the last 32 bytes only. *)
Lemma reference_decrypt_tail (k : DEK) (pre tail : bytes) :
  length tail = 32 -> 16 <= length pre -> length pre mod 16 = 0 ->
  exists X,
    length X = length pre
    /\ Reference.decrypt (pre ++ tail) k
       = option_map (app X)
           (Crypto.unpad_block
              (bytes_of_block
                 (block_xor
                    (InvCipher (schedule_of (Reference.derive k))
                       (block_of_bytes (skipn 16 tail)))
                    (block_of_bytes (firstn 16 tail))))).
Proof.
  intros Htail Hpre Hmod.
  pose proof (Nat.div_mod_eq (length pre) 16) as Hdm.
  set (j := length pre / 16 - 1).
  assert (Hj : length pre = 16 * S j) by (subst j; lia).
  unfold Reference.decrypt, Reference.aes256_cbc_pkcs7_decrypt, Reference.BLOCK_SIZE.
  rewrite firstn_app, skipn_app.
  replace (16 - length pre) with 0 by lia. rewrite firstn_O, skipn_O, app_nil_r.
  set (ct := skipn 16 pre ++ tail).
  assert (Hct : length ct = 16 * S (S j))
    by (subst ct; rewrite length_app, length_skipn; lia).
  rewrite Hct, (Nat.mul_comm 16), Nat.Div0.mod_mul, Nat.div_mul by lia.
  cbn [Nat.eqb].
  rewrite final_plain_block by assumption.
  assert (Hskip : skipn (16 * j) ct = tail).
  { subst ct. rewrite skipn_app, length_skipn.
    replace (16 * j - (length pre - 16)) with 0 by lia.
    rewrite skipn_all2 by (rewrite length_skipn; lia). reflexivity. }
  replace (16 * S j) with (16 + 16 * j) by lia.
  rewrite <- skipn_skipn, Hskip.
  eexists. split; [|apply pkcs7_unpad_final, length_bytes_of_block].
  rewrite length_join, length_cbc_decrypt, length_split_blocks. lia.
Qed.

End TailFacts.

(** ** What a successful [decrypt] tells *)

Module DecryptFacts.
Import CbcFacts ValidationFacts.

(** A returned plaintext means both checks passed and the reference
    accepted the envelope. *)
Lemma decrypt_return_inv (e : bytes) (k : DEK) (w : World) (q : bytes) :
  value (decrypt e k w) = Return q ->
  16 < length e /\ ~ key_material_empty k /\ Reference.decrypt e k = Some q.
Proof.
  intros H.
  destruct (Nat.le_gt_cases (length e) 16) as [Hs|Hl];
    [rewrite decrypt_short in H by assumption; discriminate|].
  destruct (key_material_empty_dec k) as [Hk|Hk];
    [rewrite decrypt_empty_key in H by assumption; discriminate|].
  rewrite decrypt_valid in H by assumption. cbn [value fst] in H.
  destruct (Reference.decrypt e k); [|discriminate].
  injection H as ->. auto.
Qed.

Lemma pkcs7_unpad_length (m q : bytes) :
  Reference.pkcs7_unpad m = Some q ->
  exists b, 1 <= b <= 16 /\ length q + b = length m.
Proof.
  unfold Reference.pkcs7_unpad, Reference.BLOCK_SIZE.
  set (b := Byte.to_nat (last m x00)).
  destruct (1 <=? b) eqn:E1; [|discriminate].
  destruct (b <=? 16) eqn:E2; [|discriminate].
  destruct (b <=? length m) eqn:E3; [|discriminate].
  cbn [andb].
  destruct (forallb _ _); [|discriminate].
  intros H. injection H as <-.
  apply Nat.leb_le in E1, E2, E3.
  exists b. rewrite length_firstn. lia.
Qed.

Lemma aligned_after_iv (n : nat) : 16 <= n -> (n - 16) mod 16 = 0 -> n mod 16 = 0.
Proof.
  intros Hn H. pose proof (Nat.div_mod_eq (n - 16) 16) as Hd.
  replace n with ((1 + (n - 16) / 16) * 16) by lia.
  apply Nat.Div0.mod_mul.
Qed.

Lemma reference_decrypt_shape (e : bytes) (k : DEK) (q : bytes) :
  16 <= length e -> Reference.decrypt e k = Some q ->
  length e mod 16 = 0 /\ length q + 17 <= length e <= length q + 32.
Proof.
  intros He. unfold Reference.decrypt, Reference.aes256_cbc_pkcs7_decrypt, Reference.BLOCK_SIZE.
  rewrite length_skipn.
  destruct ((length e - 16) mod 16 =? 0) eqn:E; [|discriminate].
  apply Nat.eqb_eq in E. intros H.
  apply pkcs7_unpad_length in H. destruct H as (b & Hb & Hlen).
  rewrite length_join, length_cbc_decrypt, length_split_blocks in Hlen.
  pose proof (Nat.div_mod_eq (length e - 16) 16).
  split; [now apply aligned_after_iv|lia].
Qed.

Lemma encrypt_return_inv (p : bytes) (k : DEK) (w : World) (e : bytes) :
  value (encrypt p k w) = Return e ->
  p <> [] /\ ~ key_material_empty k
  /\ e = Reference.encrypt_with_iv p k (next_random 16 w).
Proof.
  intros H.
  destruct p as [|x p]; [rewrite encrypt_empty_data in H; discriminate|].
  destruct (key_material_empty_dec k) as [Hk|Hk];
    [rewrite encrypt_empty_key in H by (discriminate || assumption); discriminate|].
  rewrite encrypt_valid in H by (discriminate || assumption).
  cbn [value fst] in H. injection H as <-.
  repeat split; (discriminate || assumption).
Qed.

(** Past validation, a ciphertext that is no whole number of blocks is
    always refused. *)
Lemma decrypt_misaligned (e : bytes) (k : DEK) (w : World) :
  16 < length e -> ~ key_material_empty k -> (length e - 16) mod 16 <> 0 ->
  value (decrypt e k w) = Throw decryption_failed.
Proof.
  intros He Hk Hmod. rewrite decrypt_valid by assumption.
  unfold Reference.decrypt, Reference.aes256_cbc_pkcs7_decrypt, Reference.BLOCK_SIZE.
  rewrite length_skipn. apply Nat.eqb_neq in Hmod. now rewrite Hmod.
Qed.

Lemma off_grid_sub (a n : nat) : n mod 16 <> 0 -> n <= 16 * a -> (16 * a - n) mod 16 <> 0.
Proof.
  intros Hn Hle H.
  pose proof (Nat.div_mod_eq n 16). pose proof (Nat.div_mod_eq (16 * a - n) 16).
  pose proof (Nat.mod_upper_bound n 16). lia.
Qed.

Lemma off_grid_add (a n : nat) : n mod 16 <> 0 -> (16 * a + n) mod 16 <> 0.
Proof.
  intros Hn. now rewrite Nat.add_comm, Nat.mul_comm, Nat.Div0.mod_add.
Qed.

End DecryptFacts.

(** ** The other direction: [Cipher] undoes [InvCipher] *)

Module ReverseFacts.
Import AES AESFacts CbcFacts PaddingFacts IvPadding.

Lemma sub_byte_inv_sub_byte (b : byte) : sub_byte (inv_sub_byte b) = b.
Proof. destruct b; reflexivity. Qed.

Lemma SubBytes_InvSubBytes (s : block) : SubBytes (InvSubBytes s) = s.
Proof.
  destruct s as [[[[[[a0 a1] a2] a3] [[[b0 b1] b2] b3]] [[[c0 c1] c2] c3]] [[[d0 d1] d2] d3]].
  cbv [InvSubBytes SubBytes block_map wmap]. now rewrite !sub_byte_inv_sub_byte.
Qed.

Lemma ShiftRows_InvShiftRows (s : block) : ShiftRows (InvShiftRows s) = s.
Proof.
  destruct s as [[[[[[a0 a1] a2] a3] [[[b0 b1] b2] b3]] [[[c0 c1] c2] c3]] [[[d0 d1] d2] d3]].
  reflexivity.
Qed.

Lemma mix8_inv_mix8 c : mix8 (inv_mix8 c) = c.
Proof.
  destruct c as [[[a0 a1] a2] a3].
  split_bits a0; split_bits a1; split_bits a2; split_bits a3.
  cbn; repeat f_equal; ring.
Qed.

Lemma mix_column_inv_mix_column (u : word) : mix_column (inv_mix_column u) = u.
Proof.
  unfold inv_mix_column, mix_column.
  now rewrite word_bits_bits_word, mix8_inv_mix8, bits_word_word_bits.
Qed.

Lemma MixColumns_InvMixColumns (s : block) : MixColumns (InvMixColumns s) = s.
Proof.
  destruct s as [[[s0 s1] s2] s3]; cbv [InvMixColumns MixColumns block_map].
  now rewrite !mix_column_inv_mix_column.
Qed.

Lemma round_inv_round (k s : block) : round k (inv_round k s) = s.
Proof.
  unfold inv_round, round.
  now rewrite SubBytes_InvSubBytes, ShiftRows_InvShiftRows, MixColumns_InvMixColumns,
    AddRoundKey_involutive.
Qed.

Lemma rounds_inv_rounds (ks : list block) : forall s, rounds ks (inv_rounds ks s) = s.
Proof.
  induction ks as [|k ks IH]; intros s; cbn; [reflexivity|].
  now rewrite round_inv_round, IH.
Qed.

(** Encryption of a block inverts its decryption, whatever the key. *)
Lemma Cipher_InvCipher (ks : schedule) (s : block) : Cipher ks (InvCipher ks s) = s.
Proof.
  with_strategy transparent [Cipher InvCipher] unfold InvCipher, Cipher.
  now rewrite AddRoundKey_involutive, rounds_inv_rounds, SubBytes_InvSubBytes,
    ShiftRows_InvShiftRows, AddRoundKey_involutive.
Qed.

Lemma cbc_encrypt_decrypt ks : forall cs iv,
  Reference.cbc_encrypt ks iv (Reference.cbc_decrypt ks iv cs) = cs.
Proof.
  induction cs as [|c cs IH]; intros iv;
    cbn [Reference.cbc_encrypt Reference.cbc_decrypt]; [reflexivity|].
  now rewrite block_xor_involutive, Cipher_InvCipher, IH.
Qed.

Lemma all_equal_repeat (b : nat) (l : bytes) :
  b < 256 -> forallb (fun x => Byte.to_nat x =? b) l = true ->
  l = repeat (Crypto.byte_of_nat b) (length l).
Proof.
  intros Hb. induction l as [|x l IH]; cbn [forallb length repeat]; [reflexivity|].
  intros H. apply andb_prop in H. destruct H as [Hx Hl].
  apply Nat.eqb_eq in Hx. rewrite <- (IH Hl). f_equal.
  apply to_nat_inj. now rewrite to_nat_byte_of_nat.
Qed.

(** Padding restores what unpadding stripped from a whole number of
    blocks. *)
Lemma pkcs7_pad_unpad (m q : bytes) :
  length m mod 16 = 0 -> Reference.pkcs7_unpad m = Some q -> Reference.pkcs7_pad q = m.
Proof.
  intros Hmod. unfold Reference.pkcs7_unpad, Reference.BLOCK_SIZE.
  set (b := Byte.to_nat (last m x00)).
  destruct (1 <=? b) eqn:E1; [|discriminate].
  destruct (b <=? 16) eqn:E2; [|discriminate].
  destruct (b <=? length m) eqn:E3; [|discriminate].
  cbn [andb].
  destruct (forallb _ _) eqn:E4; [|discriminate].
  intros H. injection H as <-.
  apply Nat.leb_le in E1, E2, E3.
  apply all_equal_repeat in E4; [|lia].
  rewrite length_skipn in E4.
  rewrite pkcs7_pad_eq. unfold Reference.BLOCK_SIZE. rewrite length_firstn.
  pose proof (Nat.div_mod_eq (length m) 16) as Hm.
  pose proof (Nat.div_mod_eq (length m - b) 16) as Hq.
  pose proof (Nat.mod_upper_bound (length m - b) 16) as Hr.
  replace (16 - Nat.min (length m - b) (length m) mod 16) with b
    by (rewrite Nat.min_l by lia; lia).
  replace (length m - (length m - b)) with b in E4 by lia.
  rewrite <- E4. apply firstn_skipn.
Qed.

Lemma split_blocks_join_exact (bs : list block) (n : nat) :
  n = length bs -> Reference.split_blocks n (Reference.join bs) = bs.
Proof.
  intros ->. rewrite <- (app_nil_r (Reference.join bs)). apply split_blocks_join.
Qed.

(** The envelope the reference accepts is the one it produces for the
    plaintext it returns, under the envelope's own IV. *)
Lemma reference_encrypt_decrypt (e : bytes) (k : DEK) (q : bytes) :
  16 <= length e -> Reference.decrypt e k = Some q ->
  Reference.encrypt_with_iv q k (firstn 16 e) = e.
Proof.
  intros He. unfold Reference.decrypt, Reference.encrypt_with_iv,
    Reference.aes256_cbc_pkcs7_decrypt, Reference.aes256_cbc_pkcs7_encrypt, Reference.BLOCK_SIZE.
  destruct (length (skipn 16 e) mod 16 =? 0) eqn:E; [|discriminate].
  apply Nat.eqb_eq in E. intros H.
  pose proof (Nat.div_mod_eq (length (skipn 16 e)) 16) as Hd.
  set (n := length (skipn 16 e) / 16) in *.
  apply pkcs7_pad_unpad in H;
    [|rewrite length_join, length_cbc_decrypt, length_split_blocks, Nat.mul_comm;
      apply Nat.Div0.mod_mul].
  rewrite H, length_join, length_cbc_decrypt, length_split_blocks.
  rewrite (Nat.mul_comm 16 n), Nat.div_mul by lia.
  rewrite split_blocks_join_exact
    by now rewrite length_cbc_decrypt, length_split_blocks.
  rewrite cbc_encrypt_decrypt, join_split_blocks by lia.
  rewrite (firstn_all2 (skipn 16 e)) by lia.
  apply firstn_skipn.
Qed.

End ReverseFacts.

(** ** Beyond the contract: what callers can and cannot rely on *)

Module Beyond.
Import AES AESFacts XorFacts Callers CbcFacts PaddingFacts ClassFacts ValidationFacts.
Import IvFacts IvPadding TailFacts DecryptFacts ReverseFacts.

Lemma xor_at_changes (l : bytes) (i : nat) (m : byte) :
  i < length l -> m <> x00 -> xor_at l i m <> l.
Proof.
  intros Hi Hm H. unfold xor_at in H.
  destruct (skipn i l) as [|b rest] eqn:E.
  - apply (f_equal (@length byte)) in E. rewrite length_skipn in E. cbn in E. lia.
  - rewrite <- (firstn_skipn i l) in H at 2. rewrite E in H.
    apply app_inv_head in H. injection H as H. now apply (@bxor_changes b m).
Qed.

(** X1 (a modified IV is not noticed).  Xor any mask into byte [i] of
    the envelope, [i] in the IV and below the plaintext length, as the
    tests do with [encrypted[0] ^ 1]: [decrypt] raises no error and
    returns the plaintext with the same mask on its byte [i]. *)
Theorem iv_tampering_undetected (p : bytes) (k : DEK) (w : World) (i : nat) (m : byte) :
  p <> [] -> ~ key_material_empty k -> i < 16 -> i < length p ->
  exists e,
    value (encrypt p k w) = Return e
    /\ (forall w', value (decrypt (xor_at e i m) k w') = Return (xor_at p i m))
    /\ (m <> x00 -> xor_at e i m <> e /\ xor_at p i m <> p).
Proof.
  intros Hp Hk Hi Hlen.
  exists (Reference.encrypt_with_iv p k (next_random 16 w)).
  split; [now rewrite encrypt_valid|]. split.
  - intros w'. rewrite iv_tampered_run by (apply length_next_random || assumption).
    now rewrite unpad_masked_data.
  - intros Hm. split; apply xor_at_changes; try assumption.
    unfold Reference.encrypt_with_iv. rewrite length_app, length_next_random. lia.
Qed.

Lemma iv_tampering_undetected_witness :
  exists e,
    value (encrypt [x01; x02; x03; x04; x05] (DekString (js "test-key")) (world_of []))
    = Return e
    /\ (forall w', value (decrypt (xor_at e 0 x01) (DekString (js "test-key")) w')
                   = Return (xor_at [x01; x02; x03; x04; x05] 0 x01))
    /\ (x01 <> x00 ->
        xor_at e 0 x01 <> e
        /\ xor_at [x01; x02; x03; x04; x05] 0 x01 <> [x01; x02; x03; x04; x05]).
Proof.
  apply iv_tampering_undetected; [discriminate | simpl; discriminate | lia | simpl; lia].
Defined.

(** X2 (a modified IV is noticed on padding bytes).  When the plaintext
    is shorter than 15 bytes and byte [i] of the IV lies at or past its
    length, below 15, any non-zero mask on that byte makes [decrypt]
    fail, always: the examples' [encrypted[10] ^ 0xFF] on a three-byte
    plaintext is such a case. *)
Theorem iv_tampering_on_padding_detected
    (p : bytes) (k : DEK) (w : World) (i : nat) (m : byte) :
  p <> [] -> ~ key_material_empty k -> length p <= i -> i < 15 -> m <> x00 ->
  exists e,
    value (encrypt p k w) = Return e
    /\ forall w', value (decrypt (xor_at e i m) k w')
                  = Throw (mkError "Decryption failed: Wrong key or tampered data").
Proof.
  intros Hp Hk Hlo Hhi Hm.
  exists (Reference.encrypt_with_iv p k (next_random 16 w)).
  split; [now rewrite encrypt_valid|].
  intros w'. rewrite iv_tampered_run by (apply length_next_random || assumption || lia).
  now rewrite unpad_masked_padding.
Qed.

Lemma iv_tampering_on_padding_detected_witness :
  exists e,
    value (encrypt [x01; x02; x03] (DekString (js "key")) (world_of [])) = Return e
    /\ forall w', value (decrypt (xor_at e 10 xff) (DekString (js "key")) w')
                  = Throw (mkError "Decryption failed: Wrong key or tampered data").
Proof.
  apply iv_tampering_on_padding_detected;
    [discriminate | simpl; discriminate | simpl; lia | lia | discriminate].
Defined.

(** X3 (only the last 32 bytes of an envelope are checked).  Split an
    envelope that [decrypt] accepts, of 48 bytes or more, before its
    last 32 bytes, and replace everything before the split by any bytes
    of the same length (the IV and all but the last two ciphertext
    blocks): [decrypt] accepts the result as well, and returns a
    plaintext of the same length whose bytes from the split's offset on
    are the original ones. *)
Theorem early_blocks_unchecked
    (pre pre' tail : bytes) (k : DEK) (w : World) (q : bytes) :
  length tail = 32 -> 16 <= length pre -> length pre mod 16 = 0 ->
  length pre' = length pre ->
  value (decrypt (pre ++ tail) k w) = Return q ->
  exists q',
    (forall w', value (decrypt (pre' ++ tail) k w') = Return q')
    /\ length q' = length q
    /\ skipn (length pre) q' = skipn (length pre) q.
Proof.
  intros Htail Hpre Hmod Hpre' Hq.
  apply decrypt_return_inv in Hq. destruct Hq as (_ & Hk & Hq).
  destruct (@reference_decrypt_tail k pre tail Htail Hpre Hmod) as (X & HX & Hd).
  destruct (@reference_decrypt_tail k pre' tail Htail) as (X' & HX' & Hd'); [lia|congruence|].
  rewrite Hq in Hd.
  destruct (Crypto.unpad_block _) as [q0|]; [|discriminate].
  cbn [option_map] in Hd, Hd'. injection Hd as ->.
  exists (X' ++ q0). split; [|split].
  - intros w'. rewrite decrypt_valid by (rewrite ?length_app; lia || assumption).
    now rewrite Hd'.
  - rewrite !length_app. lia.
  - rewrite !skipn_app, (skipn_all2 X'), (skipn_all2 X) by lia.
    now replace (length pre - length X') with (length pre - length X) by lia.
Qed.

Lemma early_blocks_unchecked_witness :
  let tail := hex "4fd63d1051dafaa693d605205cdf6dc0381627a0156b8f949affee4e24d22957" in
  let q := hex "0102030405060708090a0b0c0d0e0f1011" in
  exists q',
    (forall w', value (decrypt (repeat xff 16 ++ tail) (DekString (js "test-key")) w')
                = Return q')
    /\ length q' = length q
    /\ skipn (length (repeat x00 16)) q' = skipn (length (repeat x00 16)) q.
Proof.
  intros tail q.
  apply (@early_blocks_unchecked (repeat x00 16) (repeat xff 16) tail
           (DekString (js "test-key")) (world_of []) q);
    [reflexivity | simpl; lia | reflexivity | reflexivity | vm_compute; reflexivity].
Defined.

(** X4 (the shape of what [decrypt] accepts).  Whenever [decrypt]
    returns a plaintext, the envelope's length is a multiple of 16 and
    at least 32, and the plaintext is shorter than the envelope by 17
    to 32 bytes: the IV and 1 to 16 bytes of padding. *)
Theorem decrypt_success_shape (e : bytes) (k : DEK) (w : World) (q : bytes) :
  value (decrypt e k w) = Return q ->
  length e mod 16 = 0
  /\ 32 <= length e
  /\ length q + 17 <= length e <= length q + 32.
Proof.
  intros H. apply decrypt_return_inv in H. destruct H as (He & _ & H).
  apply reference_decrypt_shape in H; [|lia].
  destruct H as (Hmod & Hlen).
  pose proof (Nat.div_mod_eq (length e) 16).
  repeat split; lia.
Qed.

Lemma decrypt_success_shape_witness :
  let e := repeat x00 16
           ++ hex "4fd63d1051dafaa693d605205cdf6dc0381627a0156b8f949affee4e24d22957" in
  let q := hex "0102030405060708090a0b0c0d0e0f1011" in
  length e mod 16 = 0
  /\ 32 <= length e
  /\ length q + 17 <= length e <= length q + 32.
Proof.
  intros e q.
  apply (@decrypt_success_shape e (DekString (js "test-key")) (world_of []) q).
  vm_compute; reflexivity.
Defined.

(** X5 (cutting or extending an envelope by no whole number of
    blocks).  Take what [encrypt] returns and drop its last [n] bytes
    with [subarray], or copy it into a zero-filled array [n] bytes
    longer, [n] no multiple of 16: [decrypt] always throws.  The
    extended envelope gets the decryption error; the shortened one gets
    it too unless 16 bytes or fewer are left, which input validation
    refuses. *)
Theorem resized_envelope_rejected (p : bytes) (k : DEK) (w : World) (n : nat) :
  p <> [] -> ~ key_material_empty k -> n mod 16 <> 0 ->
  exists e,
    value (encrypt p k w) = Return e
    /\ (forall w', value (decrypt (zero_extend e n) k w')
                   = Throw (mkError "Decryption failed: Wrong key or tampered data"))
    /\ (forall w', value (decrypt (drop_last e n) k w')
                   = Throw (mkError
                        (if length (drop_last e n) <=? 16
                         then "Encrypted data is too short or empty (must be > 16 bytes)"
                         else "Decryption failed: Wrong key or tampered data"))).
Proof.
  intros Hp Hk Hn.
  exists (Reference.encrypt_with_iv p k (next_random 16 w)).
  split; [now rewrite encrypt_valid|].
  set (e := Reference.encrypt_with_iv p k (next_random 16 w)).
  assert (He : length e = 16 * (length p / 16 + 2)).
  { subst e. unfold Reference.encrypt_with_iv.
    rewrite length_app, length_reference_ciphertext, length_next_random. lia. }
  split; intros w'.
  - apply decrypt_misaligned; [unfold zero_extend; rewrite length_app; lia|assumption|].
    unfold zero_extend. rewrite length_app, repeat_length, He.
    replace (16 * (length p / 16 + 2) + n - 16) with (16 * (length p / 16 + 1) + n) by lia.
    now apply off_grid_add.
  - assert (Hlen : length (drop_last e n)
                   = if n <=? length e then length e - n else length e - (n - length e)).
    { unfold drop_last. destruct (n <=? length e); rewrite length_firstn; lia. }
    destruct (length (drop_last e n) <=? 16) eqn:E.
    + apply Nat.leb_le in E. now rewrite decrypt_short.
    + apply Nat.leb_gt in E. apply decrypt_misaligned; [assumption|assumption|].
      rewrite Hlen in *. rewrite He in *.
      destruct (n <=? 16 * (length p / 16 + 2)) eqn:En.
      * apply Nat.leb_le in En.
        replace (16 * (length p / 16 + 2) - n - 16)
          with (16 * (length p / 16 + 1) - n) by lia.
        apply off_grid_sub; [assumption|lia].
      * apply Nat.leb_gt in En.
        replace (16 * (length p / 16 + 2) - (n - 16 * (length p / 16 + 2)) - 16)
          with (16 * (2 * (length p / 16 + 2) - 1) - n) by lia.
        apply off_grid_sub; [assumption|lia].
Qed.

Lemma resized_envelope_rejected_witness :
  exists e,
    value (encrypt [x01; x02; x03; x04; x05] (DekString (js "test-key")) (world_of []))
    = Return e
    /\ (forall w', value (decrypt (zero_extend e 10) (DekString (js "test-key")) w')
                   = Throw (mkError "Decryption failed: Wrong key or tampered data"))
    /\ (forall w', value (decrypt (drop_last e 5) (DekString (js "test-key")) w')
                   = Throw (mkError
                        (if length (drop_last e 5) <=? 16
                         then "Encrypted data is too short or empty (must be > 16 bytes)"
                         else "Decryption failed: Wrong key or tampered data"))).
Proof.
  assert (H10 : 10 mod 16 <> 0) by (simpl; lia).
  assert (H5 : 5 mod 16 <> 0) by (simpl; lia).
  assert (Hp : [x01; x02; x03; x04; x05] <> []) by discriminate.
  assert (Hk : ~ key_material_empty (DekString (js "test-key"))) by (simpl; discriminate).
  destruct (@resized_envelope_rejected _ _ (world_of []) 10 Hp Hk H10) as (e & He & Hext & _).
  destruct (@resized_envelope_rejected _ _ (world_of []) 5 Hp Hk H5) as (e' & He' & _ & Hcut).
  exists e. split; [assumption|]. split; [assumption|].
  assert (e' = e) by congruence. now subst e'.
Defined.

(** X6 (no two plaintexts share an envelope).  If [encrypt] returns the
    same envelope for two plaintexts under one key, whatever the random
    source delivered in either call, the plaintexts are equal. *)
Theorem encrypt_injective (p1 p2 : bytes) (k : DEK) (w1 w2 : World) (e : bytes) :
  value (encrypt p1 k w1) = Return e -> value (encrypt p2 k w2) = Return e -> p1 = p2.
Proof.
  intros H1 H2.
  apply encrypt_return_inv in H1, H2.
  destruct H1 as (_ & Hk & H1), H2 as (_ & _ & H2).
  pose proof (@reference_envelope_round_trip p1 k _ (length_next_random 16 w1)) as R1.
  pose proof (@reference_envelope_round_trip p2 k _ (length_next_random 16 w2)) as R2.
  rewrite <- H1 in R1. rewrite <- H2 in R2. congruence.
Qed.

Lemma encrypt_injective_witness :
  [x01; x02; x03] = [x01; x02; x03].
Proof.
  apply (@encrypt_injective [x01; x02; x03] [x01; x02; x03] (DekString (js "key"))
           (world_of []) (world_of (repeat x00 16 ++ [x01]))
           (Reference.encrypt_with_iv [x01; x02; x03] (DekString (js "key")) (repeat x00 16)));
    (rewrite encrypt_valid by (discriminate || (simpl; discriminate))); reflexivity.
Defined.

(** X7 (two encryptions in a row).  Two successive [encrypt] calls on
    the same plaintext and key, as the tests make them, both succeed;
    the first envelope starts with bytes 0..15 of what the random
    source delivers and the second with bytes 16..31; the two envelopes
    are equal exactly when those two runs of bytes are equal; and either
    one decrypts to the plaintext. *)
Theorem encrypt_twice_ivs (p : bytes) (k : DEK) (w : World) :
  p <> [] -> ~ key_material_empty k ->
  exists e1 e2,
    value (encrypt_twice p k p k w) = Return (e1, e2)
    /\ firstn 16 e1 = map (entropy w) (seq 0 16)
    /\ firstn 16 e2 = map (entropy w) (seq 16 16)
    /\ (e1 = e2 <-> map (entropy w) (seq 0 16) = map (entropy w) (seq 16 16))
    /\ (forall w', value (decrypt e1 k w') = Return p)
    /\ (forall w', value (decrypt e2 k w') = Return p).
Proof.
  intros Hp Hk.
  exists (Reference.encrypt_with_iv p k (next_random 16 w)),
         (Reference.encrypt_with_iv p k (next_random 16 (after_encrypt w))).
  assert (Hiv : forall iv, length iv = 16 ->
                firstn 16 (Reference.encrypt_with_iv p k iv) = iv).
  { intros iv Hlen. unfold Reference.encrypt_with_iv.
    rewrite firstn_app, Hlen, Nat.sub_diag, firstn_O, app_nil_r.
    apply firstn_all2. lia. }
  assert (H2 : next_random 16 (after_encrypt w) = map (entropy w) (seq 16 16))
    by reflexivity.
  assert (H1 : next_random 16 w = map (entropy w) (seq 0 16)) by reflexivity.
  split; [|split; [|split; [|split; [|split]]]].
  - unfold encrypt_twice, bind, ret. now rewrite !encrypt_valid by assumption.
  - rewrite Hiv by apply length_next_random. exact H1.
  - rewrite Hiv by apply length_next_random. exact H2.
  - rewrite <- H1, <- H2. split; [|congruence].
    intros H. apply (f_equal (firstn 16)) in H.
    now rewrite !Hiv in H by apply length_next_random.
  - intros w'. rewrite decrypt_valid
      by (unfold Reference.encrypt_with_iv;
          rewrite ?length_app, ?length_reference_ciphertext, ?length_next_random;
          lia || assumption).
    now rewrite reference_envelope_round_trip by apply length_next_random.
  - intros w'. rewrite decrypt_valid
      by (unfold Reference.encrypt_with_iv;
          rewrite ?length_app, ?length_reference_ciphertext, ?length_next_random;
          lia || assumption).
    now rewrite reference_envelope_round_trip by apply length_next_random.
Qed.

Lemma encrypt_twice_ivs_witness :
  let p := [x01; x02; x03; x04; x05] in
  let k := DekString (js "same-key") in
  let w := world_of [] in
  exists e1 e2,
    value (encrypt_twice p k p k w) = Return (e1, e2)
    /\ firstn 16 e1 = map (entropy w) (seq 0 16)
    /\ firstn 16 e2 = map (entropy w) (seq 16 16)
    /\ (e1 = e2 <-> map (entropy w) (seq 0 16) = map (entropy w) (seq 16 16))
    /\ (forall w', value (decrypt e1 k w') = Return p)
    /\ (forall w', value (decrypt e2 k w') = Return p).
Proof.
  intros p k w. apply encrypt_twice_ivs; [discriminate | simpl; discriminate].
Defined.


(** X9 (text keys that are one key).  A text key that starts with a
    low surrogate code unit (U+DC00..U+DFFF) is the same key as the one
    with any other low surrogate in its place: what [encrypt] returns
    under the one, [decrypt] opens under the other. *)
Theorem lone_surrogate_keys_collide
    (u1 u2 : char16) (t : jsstring) (p : bytes) (w : World) :
  is_low_surrogate (unit_value u1) = true ->
  is_low_surrogate (unit_value u2) = true ->
  p <> [] ->
  exists e,
    value (encrypt p (DekString (u1 :: t)) w) = Return e
    /\ forall w', value (decrypt e (DekString (u2 :: t)) w') = Return p.
Proof.
  intros H1 H2 Hp.
  assert (Hlow : forall u, is_low_surrogate (unit_value u) = true ->
                 utf8 (u :: t) = utf8_point 0xFFFD%N ++ utf8 t).
  { intros u Hu. cbn [utf8]. rewrite Hu.
    replace (is_high_surrogate (unit_value u)) with false; [reflexivity|].
    unfold is_low_surrogate, is_high_surrogate in *.
    apply andb_prop in Hu. destruct Hu as [Hu _]. apply N.leb_le in Hu.
    symmetry. apply andb_false_iff. right. apply N.leb_gt. lia. }
  exists (Reference.encrypt_with_iv p (DekString (u1 :: t)) (next_random 16 w)).
  split; [rewrite encrypt_valid by (assumption || (simpl; discriminate)); reflexivity|].
  intros w'.
  rewrite decrypt_valid
    by (unfold Reference.encrypt_with_iv;
        rewrite ?length_app, ?length_reference_ciphertext, ?length_next_random;
        lia || (simpl; discriminate)).
  pose proof (@reference_envelope_round_trip p (DekString (u1 :: t)) _
                (length_next_random 16 w)) as R.
  unfold Reference.decrypt, Reference.encrypt_with_iv, Reference.derive in *.
  cbn [Reference.key_bytes] in *. rewrite (Hlow u2 H2), <- (Hlow u1 H1). now rewrite R.
Qed.

Lemma lone_surrogate_keys_collide_witness :
  exists e,
    value (encrypt [x01] (DekString ((xdc, x00) :: js "key")) (world_of [])) = Return e
    /\ forall w', value (decrypt e (DekString ((xdf, xff) :: js "key")) w') = Return [x01].
Proof.
  apply lone_surrogate_keys_collide; [reflexivity | reflexivity | discriminate].
Defined.

(** X10 (what [decrypt] accepts is what [encrypt] writes).  When
    [decrypt] returns a plaintext for an envelope, no other envelope
    with the same first 16 bytes gives that plaintext under that key;
    and if the plaintext is not empty, [encrypt] of it under that key
    returns this very envelope whenever the random source delivers the
    envelope's first 16 bytes. *)
Theorem accepted_envelope_is_canonical (e : bytes) (k : DEK) (w : World) (q : bytes) :
  value (decrypt e k w) = Return q ->
  (forall e' w', firstn 16 e' = firstn 16 e ->
                 value (decrypt e' k w') = Return q -> e' = e)
  /\ (q <> [] -> forall w', next_random 16 w' = firstn 16 e ->
                            value (encrypt q k w') = Return e).
Proof.
  intros H. apply decrypt_return_inv in H. destruct H as (He & Hk & H).
  apply reference_encrypt_decrypt in H; [|lia].
  split.
  - intros e' w' Hiv H'. apply decrypt_return_inv in H'. destruct H' as (He' & _ & H').
    apply reference_encrypt_decrypt in H'; [|lia]. congruence.
  - intros Hq w' Hiv. rewrite encrypt_valid by assumption. cbn [value fst]. congruence.
Qed.

Lemma accepted_envelope_is_canonical_witness :
  let e := repeat x00 16
           ++ hex "4fd63d1051dafaa693d605205cdf6dc0381627a0156b8f949affee4e24d22957" in
  let q := hex "0102030405060708090a0b0c0d0e0f1011" in
  let k := DekString (js "test-key") in
  (forall e' w', firstn 16 e' = firstn 16 e ->
                 value (decrypt e' k w') = Return q -> e' = e)
  /\ (q <> [] -> forall w', next_random 16 w' = firstn 16 e ->
                            value (encrypt q k w') = Return e).
Proof.
  intros e q k.
  apply (@accepted_envelope_is_canonical e k (world_of []) q).
  vm_compute; reflexivity.
Defined.

(** X11 (what the length of an envelope tells).  An envelope is its
    plaintext, 1 to 16 bytes of padding up to the next multiple of 16,
    and the 16-byte IV; so two envelopes, whatever the keys and IVs,
    have the same length exactly when the two plaintext lengths have
    the same quotient by 16. *)
Theorem envelope_length_reveals
    (p1 p2 : bytes) (k1 k2 : DEK) (w1 w2 : World) (e1 e2 : bytes) :
  value (encrypt p1 k1 w1) = Return e1 ->
  value (encrypt p2 k2 w2) = Return e2 ->
  length e1 = 16 + length p1 + (16 - length p1 mod 16)
  /\ (length e1 = length e2 <-> length p1 / 16 = length p2 / 16).
Proof.
  intros H1 H2. apply encrypt_return_inv in H1, H2.
  destruct H1 as (_ & _ & ->), H2 as (_ & _ & ->).
  unfold Reference.encrypt_with_iv.
  rewrite !length_app, !length_reference_ciphertext, !length_next_random.
  pose proof (Nat.div_mod_eq (length p1) 16).
  pose proof (Nat.mod_upper_bound (length p1) 16).
  split; [lia|]. split; lia.
Qed.

Lemma envelope_length_reveals_witness :
  let k := DekString (js "test-key") in
  let e1 := Reference.encrypt_with_iv [x41] k (repeat x00 16) in
  let e2 := Reference.encrypt_with_iv (repeat x41 15) k (repeat x00 16) in
  length e1 = 16 + length [x41] + (16 - length [x41] mod 16)
  /\ (length e1 = length e2 <-> length [x41] / 16 = length (repeat x41 15) / 16).
Proof.
  intros k e1 e2.
  apply (@envelope_length_reveals [x41] (repeat x41 15) k k (world_of []) (world_of []));
    (rewrite encrypt_valid by (discriminate || (simpl; discriminate))); reflexivity.
Defined.

End Beyond.
